(** * The legacy [st.cache] facade and the memoizing cache engine behind it

    Source: [lib/streamlit/runtime/caching/legacy_cache_api.py].

    The file holds one function, [cache], a deprecated entry point that
    prints a deprecation notice and hands its arguments to one of two
    successor decorators, [st.cache_resource] or [st.cache_data].  The first
    part of this development ([Module Facade]) embeds that function as a
    small program over the three external calls it makes and proves the
    dispatch properties on every handler of those calls.

    The successor decorators themselves live elsewhere in the repository.
    The second part ([Module Engine]) models the cache engine they are
    specified to be (store, expiry, persistence, single-flight) and proves
    the engine properties on that model. *)

From Stdlib Require Import ZArith Lia.
From stdpp Require Import base tactics option list strings gmap.

Local Open Scope Z_scope.

(* ===================================================================== *)
(** * Part I: the facade                                                  *)
(* ===================================================================== *)

Module Facade.

Section Values.
Context {Func HashFuncsDict Float : Type}.

(** ** Python values that cross the facade

    [F] (the cached callable), [HashFuncsDict] and [float] are opaque to
    the facade: it never inspects them, it only passes them on. *)
Inductive PyVal : Type :=
| VNone
| VBool (b : bool)
| VInt (n : Z)
| VFloat (x : Float)
| VFunc (f : Func)
| VHashFuncs (h : HashFuncsDict).

(** An [x | None] annotation: [None] or the injected value. *)
Definition opt_val {A} (inj : A -> PyVal) (o : option A) : PyVal :=
  match o with
  | Some a => inj a
  | None => VNone
  end.

(** The parameters of [cache], typed as annotated at lines 62-71. *)
Record CacheArgs : Type := mkCacheArgs {
  func : option Func;
  persist : bool;
  allow_output_mutation : bool;
  show_spinner : bool;
  suppress_st_warning : bool;
  hash_funcs : option HashFuncsDict;
  max_entries : option Z;
  ttl : option Float
}.

(** The defaults of the signature. *)
Definition default_args : CacheArgs :=
  {| func := None;
     persist := false;
     allow_output_mutation := false;
     show_spinner := true;
     suppress_st_warning := false;
     hash_funcs := None;
     max_entries := None;
     ttl := None |}.

(** Keyword arguments of a call, in the order they are written. *)
Definition Kwargs : Type := list (string * PyVal).

Fixpoint kwarg (name : string) (kw : Kwargs) : option PyVal :=
  match kw with
  | [] => None
  | (n, v) :: rest => if String.eqb n name then Some v else kwarg name rest
  end.

(** ** The external calls of [cache] *)

(** The two successor mechanisms. *)
Inductive Successor : Type :=
| st_cache_resource
| st_cache_data.

(** What an observer of the facade sees, in program order. *)
Inductive Event : Type :=
| EvDeprecation (msg : string)
| EvCall (s : Successor) (pos : list PyVal) (kw : Kwargs).

(** Programs over the external calls.  [Ret] is whatever a successor
    returns: the memoized function, or a decorator when [func] is [None]. *)
Inductive Prog (Ret : Type) : Type :=
| Return (r : Ret)
| show_deprecation_warning (msg : string) (k : Prog Ret)
| CallSuccessor (s : Successor) (pos : list PyVal) (kw : Kwargs)
    (k : Ret -> Prog Ret).

Arguments Return {Ret} r.
Arguments show_deprecation_warning {Ret} msg k.
Arguments CallSuccessor {Ret} s pos kw k.

(** ** [cache], lines 162-184 *)

Section Cache.
(** [CACHE_DOCS_URL] is imported from [streamlit.runtime.caching]. *)
Variable CACHE_DOCS_URL : string.

Definition nl : string := String (Ascii.ascii_of_nat 10) EmptyString.

(** The f-string of lines 163-165. *)
Definition deprecation_message : string :=
  "`st.cache` is deprecated and will be removed soon. Please use one of Streamlit's new caching commands,"
  +:+ nl
  +:+ "`st.cache_data` or `st.cache_resource`." +:+ nl +:+ nl
  +:+ "More information [in our docs](" +:+ CACHE_DOCS_URL +:+ ").".

(** The keyword arguments written at lines 171-174. *)
Definition resource_kwargs (a : CacheArgs) : Kwargs :=
  [ ("show_spinner", VBool (show_spinner a));
    ("hash_funcs", opt_val VHashFuncs (hash_funcs a));
    ("max_entries", opt_val VInt (max_entries a));
    ("ttl", opt_val VFloat (ttl a)) ].

(** The keyword arguments written at lines 179-183. *)
Definition data_kwargs (a : CacheArgs) : Kwargs :=
  [ ("persist", VBool (persist a));
    ("show_spinner", VBool (show_spinner a));
    ("hash_funcs", opt_val VHashFuncs (hash_funcs a));
    ("max_entries", opt_val VInt (max_entries a));
    ("ttl", opt_val VFloat (ttl a)) ].

(** The body of [cache].  The decorator of line 61,
    [@gather_metrics("cache")], comes from [streamlit.runtime.metrics_util]:
    it records telemetry around the function and calls it with the
    arguments it was given.  What is embedded here is the function it
    wraps. *)
Definition cache {Ret} (a : CacheArgs) : Prog Ret :=
  show_deprecation_warning deprecation_message
    (if allow_output_mutation a then
       CallSuccessor st_cache_resource
         [opt_val VFunc (func a)] (resource_kwargs a) Return
     else
       CallSuccessor st_cache_data
         [opt_val VFunc (func a)] (data_kwargs a) Return).

End Cache.

(** ** Running a program against the outside world

    The successors are black boxes: a handler may read and change a world
    state [W], and answers with a value or raises.  The deprecation helper
    returns [None]; it can only change the world. *)

Section Run.
Context {Ret Exn W : Type}.
Variable on_warning : string -> W -> W.
Variable on_successor :
  Successor -> list PyVal -> Kwargs -> W -> W * (Ret + Exn).

(** Outcome of a run: the events in order, the final world, and the
    returned value or the raised exception. *)
Record Outcome : Type := mkOutcome {
  trace : list Event;
  world : W;
  result : Ret + Exn
}.

Definition emit (e : Event) (o : Outcome) : Outcome :=
  {| trace := e :: trace o; world := world o; result := result o |}.

Fixpoint run (p : Prog Ret) (w : W) : Outcome :=
  match p with
  | Return r => {| trace := []; world := w; result := inl r |}
  | show_deprecation_warning msg k =>
      emit (EvDeprecation msg) (run k (on_warning msg w))
  | CallSuccessor s pos kw k =>
      match on_successor s pos kw w with
      | (w', inl r) => emit (EvCall s pos kw) (run (k r) w')
      | (w', inr e) =>
          {| trace := [EvCall s pos kw]; world := w'; result := inr e |}
      end
  end.

End Run.

(** ** Reading a trace *)

Definition successor_calls (t : list Event) : list Successor :=
  omap (fun e => match e with
                 | EvCall s _ _ => Some s
                 | EvDeprecation _ => None
                 end) t.

(** The [persist] keyword arguments that reached a successor. *)
Definition persist_kwargs (t : list Event) : list PyVal :=
  omap (fun e => match e with
                 | EvCall _ _ kw => kwarg "persist" kw
                 | EvDeprecation _ => None
                 end) t.

(** The successor that the flag selects. *)
Definition selected (a : CacheArgs) : Successor :=
  if allow_output_mutation a then st_cache_resource else st_cache_data.

(** A call that carries [func] and the four options both successors take,
    each as the facade received it. *)
Definition forwards_common (a : CacheArgs) (pos : list PyVal) (kw : Kwargs)
  : Prop :=
  pos = [opt_val VFunc (func a)]
  /\ kwarg "show_spinner" kw = Some (VBool (show_spinner a))
  /\ kwarg "hash_funcs" kw = Some (opt_val VHashFuncs (hash_funcs a))
  /\ kwarg "max_entries" kw = Some (opt_val VInt (max_entries a))
  /\ kwarg "ttl" kw = Some (opt_val VFloat (ttl a)).

(** A call that carries all five options, [persist] included. *)
Definition forwards_all_five (a : CacheArgs) (pos : list PyVal) (kw : Kwargs)
  : Prop :=
  kwarg "persist" kw = Some (VBool (persist a)) /\ forwards_common a pos kw.

(** Every successor call of a trace carries all five options. *)
Definition all_five_forwarded (a : CacheArgs) (t : list Event) : Prop :=
  forall s pos kw, EvCall s pos kw ∈ t -> forwards_all_five a pos kw.

(** Two argument records that differ at most in [suppress_st_warning]. *)
Definition same_but_suppress_st_warning (a b : CacheArgs) : Prop :=
  func a = func b /\ persist a = persist b
  /\ allow_output_mutation a = allow_output_mutation b
  /\ show_spinner a = show_spinner b
  /\ hash_funcs a = hash_funcs b
  /\ max_entries a = max_entries b
  /\ ttl a = ttl b.

(** Two argument records that differ at most in [persist]. *)
Definition same_but_persist (a b : CacheArgs) : Prop :=
  func a = func b
  /\ allow_output_mutation a = allow_output_mutation b
  /\ show_spinner a = show_spinner b
  /\ suppress_st_warning a = suppress_st_warning b
  /\ hash_funcs a = hash_funcs b
  /\ max_entries a = max_entries b
  /\ ttl a = ttl b.

(** The external calls that one invocation of [cache] makes, in program
    order: line 162, then line 169 or line 177. *)
Definition footprint (CACHE_DOCS_URL : string) (a : CacheArgs) : list Event :=
  [ EvDeprecation (deprecation_message CACHE_DOCS_URL);
    EvCall (selected a) [opt_val VFunc (func a)]
      (if allow_output_mutation a then resource_kwargs a
       else data_kwargs a) ].

(** The notices of a trace, in order. *)
Definition notices (t : list Event) : list string :=
  omap (fun e => match e with
                 | EvDeprecation msg => Some msg
                 | EvCall _ _ _ => None
                 end) t.

(** The parameters of [cache] that the body passes on by keyword. *)
Definition forwardable : list string :=
  ["persist"; "show_spinner"; "hash_funcs"; "max_entries"; "ttl"].

(** The names of the keyword arguments of a call. *)
Definition keywords (kw : Kwargs) : list string := fst <$> kw.

(** ** Several invocations in a row

    A script that uses [st.cache] several times, as the docstring does at
    lines 116, 134, 141, 150 and 157: each invocation starts in the world
    the previous one left, and an exception ends the script. *)

Section Script.
Context {Ret Exn W : Type}.
Variable CACHE_DOCS_URL : string.
Variable on_warning : string -> W -> W.
Variable on_successor :
  Successor -> list PyVal -> Kwargs -> W -> W * (Ret + Exn).

Record ScriptOutcome : Type := mkScriptOutcome {
  script_trace : list Event;
  script_world : W;
  answers : list Ret;
  raised : option Exn
}.

Fixpoint run_script (l : list CacheArgs) (w : W) : ScriptOutcome :=
  match l with
  | [] => {| script_trace := []; script_world := w; answers := [];
             raised := None |}
  | a :: rest =>
      let o := run on_warning on_successor (cache CACHE_DOCS_URL a) w in
      match result o with
      | inl r =>
          let o' := run_script rest (world o) in
          {| script_trace := trace o ++ script_trace o';
             script_world := script_world o';
             answers := r :: answers o';
             raised := raised o' |}
      | inr e =>
          {| script_trace := trace o; script_world := world o;
             answers := []; raised := Some e |}
      end
  end.

(** How many invocations of a script were begun: those that returned, and
    the one that raised. *)
Definition begun (o : ScriptOutcome) : nat :=
  (length (answers o) + match raised o with Some _ => 1 | None => 0 end)%nat.

End Script.

End Values.

Arguments PyVal : clear implicits.
Arguments CacheArgs : clear implicits.
Arguments Kwargs : clear implicits.
Arguments Event : clear implicits.
Arguments Prog : clear implicits.
Arguments Return {Func HashFuncsDict Float Ret} r.
Arguments show_deprecation_warning {Func HashFuncsDict Float Ret} msg k.
Arguments CallSuccessor {Func HashFuncsDict Float Ret} s pos kw k.
Arguments Outcome : clear implicits.
Arguments ScriptOutcome : clear implicits.

End Facade.

(* ===================================================================== *)
(** * Part II: the cache engine behind the successors                     *)
(* ===================================================================== *)

(** The engine is code of [st.cache_data] and [st.cache_resource], which
    the facade only calls; every definition of this part is modelled from
    the specification of that engine.  Cached values are immutable here,
    so both Mutation Guard policies hand out the stored value. *)

Module Engine.

Section Engine.
Context {CallKey : Type} `{!EqDecision CallKey, !Countable CallKey}.
Context {V Args Exn FunctionIdentity HashFuncRegistry : Type}.

(** ** Data model *)

(** Modelled from the spec: `Timestamp`, absent from the source as the
    whole engine is; a count of clock ticks. *)
Definition Timestamp : Type := Z.

(** Modelled from the spec: `Duration`, in the same ticks. *)
Definition Duration : Type := Z.

(** Modelled from the spec: the engine's [CacheEntry]; the engine is code
    of [st.cache_data] and [st.cache_resource], which the facade only
    calls.  `{ key, value, created_at, last_touch }`. *)
Record CacheEntry : Type := mkEntry {
  key : CallKey;
  value : V;
  created_at : Timestamp;
  last_touch : Timestamp
}.

(** Modelled from the spec: the two Mutation Guard policies. *)
Inductive MutationPolicy : Type :=
| SharedMutable
| IsolatedCopy.

(** Modelled from the spec: the engine's [CacheConfig],
    `{ max_entries: Option<u64>, ttl: Option<Duration>, persist,
       hash_funcs, mutation_policy }`. *)
Record CacheConfig : Type := mkConfig {
  max_entries : option N;
  ttl : option Duration;
  persist : bool;
  hash_funcs : HashFuncRegistry;
  mutation_policy : MutationPolicy
}.

(** ** Cache Store *)

(** Modelled from the spec: the Cache Store, a mapping from fingerprint to
    entry.  The entries are kept in the order they were inserted. *)
Local Abbreviation Store := (list CacheEntry).

(** Modelled from the spec: the Store's `get(key) -> Option<Entry>`. *)
Fixpoint get (k : CallKey) (s : Store) : option CacheEntry :=
  match s with
  | [] => None
  | e :: s' => if decide (key e = k) then Some e else get k s'
  end.

(** Modelled from the spec: the Store's `remove(key)`. *)
Definition remove (k : CallKey) (s : Store) : Store :=
  filter (fun e => key e <> k) s.

(** Modelled from the spec: the Store's `clear()`. *)
Definition clear (s : Store) : Store := [].

(** Modelled from the spec: "the entry with the oldest `created_at`";
    among entries created at the same instant, the one inserted first. *)
Fixpoint oldest (s : Store) : option CacheEntry :=
  match s with
  | [] => None
  | e :: s' =>
      match oldest s' with
      | Some o => if bool_decide (created_at o < created_at e)
                  then Some o else Some e
      | None => Some e
      end
  end.

(** Modelled from the spec: the condition `|entries| == max_entries`. *)
Definition is_full (cfg : CacheConfig) (s : Store) : bool :=
  match max_entries cfg with
  | Some m => bool_decide (N.of_nat (length s) = m)
  | None => false
  end.

(** Modelled from the spec: eviction removes the oldest entry. *)
Definition evict (s : Store) : Store :=
  match oldest s with
  | Some o => remove (key o) s
  | None => s
  end.

(** Modelled from the spec: insertion of an entry under the eviction
    policy of `put`: a new key on a full store first evicts the oldest
    entry; a key already present has its entry replaced, so that there is
    at most one entry per key. *)
Definition insert_entry (cfg : CacheConfig) (e : CacheEntry) (s : Store)
  : Store :=
  match get (key e) s with
  | Some _ => remove (key e) s ++ [e]
  | None => (if is_full cfg s then evict s else s) ++ [e]
  end.

(** Modelled from the spec: the Store's `put(key, value)`; the entry is
    stamped with the time of the call. *)
Definition put (cfg : CacheConfig) (k : CallKey) (v : V) (now : Timestamp)
  (s : Store) : Store :=
  insert_entry cfg
    {| key := k; value := v; created_at := now; last_touch := now |} s.

(** Modelled from the spec: `last_touch` is the time of the last read; an
    entry as it would be had it last been read at [touches e]. *)
Definition touched (touches : CacheEntry -> Timestamp) (e : CacheEntry)
  : CacheEntry :=
  {| key := key e; value := value e; created_at := created_at e;
     last_touch := touches e |}.

(** Modelled from the spec: the keys present in a store, in insertion
    order. *)
Definition keys (s : Store) : list CallKey := key <$> s.

(** Modelled from the spec: `created_at` against insertion order; the
    entries were stamped by a clock that never ran backwards. *)
Definition chronological (s : Store) : Prop :=
  forall i j e1 e2,
    s !! i = Some e1 -> s !! j = Some e2 -> (i <= j)%nat ->
    created_at e1 <= created_at e2.

(** Modelled from the spec: an access pattern on the Store, made of `get`
    and `put`; `get` reads and leaves the store as it was. *)
Inductive StoreOp : Type :=
| OpGet (k : CallKey)
| OpPut (k : CallKey) (v : V) (now : Timestamp).

(** Modelled from the spec: the store after one operation. *)
Definition store_op (cfg : CacheConfig) (op : StoreOp) (s : Store) : Store :=
  match op with
  | OpGet k => s
  | OpPut k v now => put cfg k v now s
  end.

(** Modelled from the spec: the store after a sequence of operations. *)
Definition store_ops (cfg : CacheConfig) (ops : list StoreOp) (s : Store)
  : Store :=
  foldl (fun s op => store_op cfg op s) s ops.

Definition is_get (op : StoreOp) : bool :=
  match op with
  | OpGet _ => true
  | OpPut _ _ _ => false
  end.

(** ** Expiry Manager *)

(** Modelled from the spec: `is_expired(entry, ttl, now)`, true iff
    `now - entry.created_at >= ttl`. *)
Definition is_expired (e : CacheEntry) (d : Duration) (now : Timestamp)
  : bool :=
  bool_decide (d <= now - created_at e).

(** Modelled from the spec: expiry under a configuration; nothing expires
    when `ttl` is unset. *)
Definition expired (cfg : CacheConfig) (e : CacheEntry) (now : Timestamp)
  : bool :=
  match ttl cfg with
  | Some d => is_expired e d now
  | None => false
  end.

(** ** Persistence Layer *)

(** Modelled from the spec: the durable backing.  [writable] tells whether
    a `save` succeeds. *)
Record Disk : Type := mkDisk {
  files : gmap CallKey CacheEntry;
  writable : bool
}.

(** Modelled from the spec: `PersistError`. *)
Inductive PersistError : Type :=
| PersistFailed (k : CallKey).

(** Modelled from the spec: `save(key, entry) -> Result<(), PersistError>`. *)
Definition save (k : CallKey) (e : CacheEntry) (d : Disk)
  : PersistError + Disk :=
  if writable d
  then inr {| files := <[k := e]> (files d); writable := writable d |}
  else inl (PersistFailed k).

(** Modelled from the spec: `load(key) -> Option<Entry>`. *)
Definition load (k : CallKey) (d : Disk) : option CacheEntry :=
  files d !! k.

(** ** The cache instance *)

(** Modelled from the spec: the mutable state behind one decorated
    callable: the in-memory store, the backing store, the reported
    persistence failures, and the history of the runs of the wrapped
    callable (the arguments of each run). *)
Record State : Type := mkState {
  entries : Store;
  disk : Disk;
  reports : list PersistError;
  log : list Args
}.

(** Modelled from the spec: the state with another store. *)
Definition with_entries (s : Store) (st : State) : State :=
  {| entries := s; disk := disk st; reports := reports st; log := log st |}.

(** Modelled from the spec: configuration errors fail at construction. *)
Inductive ConfigError : Type :=
| InvalidMaxEntries.

(** Modelled from the spec: construction of a cache instance over a backing
    store; `max_entries` of zero is refused. *)
Definition construct (cfg : CacheConfig) (d : Disk) : ConfigError + State :=
  match max_entries cfg with
  | Some 0%N => inl InvalidMaxEntries
  | _ => inr {| entries := []; disk := d; reports := []; log := [] |}
  end.

(** Modelled from the spec: on a miss in memory the Persistence Layer is
    consulted, when `persist` is on; an entry found there is judged by the
    `created_at` it was saved with, and a live one is promoted into the
    store under the eviction policy. *)
Definition probe_disk (cfg : CacheConfig) (k : CallKey) (now : Timestamp)
  (st : State) : option CacheEntry * State :=
  if persist cfg then
    match load k (disk st) with
    | Some e =>
        if expired cfg e now then (None, st)
        else (Some e, with_entries (insert_entry cfg e (entries st)) st)
    | None => (None, st)
    end
  else (None, st).

(** Modelled from the spec: the lookup of a call.  Expiry is checked on
    every `get`: an expired entry is removed from the store and the lookup
    goes on as a miss. *)
Definition probe (cfg : CacheConfig) (k : CallKey) (now : Timestamp)
  (st : State) : option CacheEntry * State :=
  match get k (entries st) with
  | Some e =>
      if expired cfg e now
      then probe_disk cfg k now (with_entries (remove k (entries st)) st)
      else (Some e, st)
  | None => probe_disk cfg k now st
  end.

(** Modelled from the spec: a key the cache has no entry for, in memory
    or on disk. *)
Definition absent (k : CallKey) (st : State) : Prop :=
  get k (entries st) = None /\ load k (disk st) = None.

(** ** Calls *)

(** Modelled from the spec: what `UnhashableArgumentError` names, the
    offending argument and its type. *)
Record Unhashable : Type := mkUnhashable {
  argument : string;
  type_name : string
}.

(** Modelled from the spec: the failures of a call. *)
Inductive CallError : Type :=
| UnhashableArgumentError (u : Unhashable)
| ComputationError (e : Exn).

(** Modelled from the spec: what a call gives back, a failure or a value. *)
Definition Result : Type := CallError + V.

Section Call.
(** Modelled from the spec: the Key Deriver,
    `derive(identity, args, kwargs, registry) -> CallKey`, which fails on
    an unhashable argument. *)
Variable derive :
  FunctionIdentity -> Args -> HashFuncRegistry -> Unhashable + CallKey.
Variable cfg : CacheConfig.
Variable identity : FunctionIdentity.
(** The wrapped callable: it returns a value or raises. *)
Variable f : Args -> Exn + V.

(** Modelled from the spec: the key of a call of this cache instance. *)
Definition key_of (a : Args) : Unhashable + CallKey :=
  derive identity a (hash_funcs cfg).

(** Modelled from the spec: the write of a computed value, into the store
    and, when `persist` is on, to the backing store; a failed `save` is
    reported and the entry stays in memory only. *)
Definition store_result (k : CallKey) (v : V) (now : Timestamp) (st : State)
  : State :=
  let e := {| key := k; value := v; created_at := now; last_touch := now |} in
  let s := insert_entry cfg e (entries st) in
  if persist cfg then
    match save k e (disk st) with
    | inr d' => {| entries := s; disk := d'; reports := reports st;
                   log := log st |}
    | inl err => {| entries := s; disk := disk st;
                    reports := reports st ++ [err]; log := log st |}
    end
  else with_entries s st.

(** Modelled from the spec: the outcome of one run of the wrapped
    callable, as a call reports it: its value, or its own failure. *)
Definition outcome (a : Args) : Result :=
  match f a with
  | inr v => inr v
  | inl exn => inl (ComputationError exn)
  end.

(** Modelled from the spec: a run of the wrapped callable is recorded. *)
Definition logged (a : Args) (st : State) : State :=
  {| entries := entries st; disk := disk st; reports := reports st;
     log := log st ++ [a] |}.

(** Modelled from the spec: the handling of a miss.  The wrapped callable
    runs; a value is written to the cache and returned, a failure is
    passed on and nothing is written. *)
Definition compute (a : Args) (k : CallKey) (now : Timestamp) (st : State)
  : Result * State :=
  match f a with
  | inr v => (inr v, store_result k v now (logged a st))
  | inl exn => (inl (ComputationError exn), logged a st)
  end.

(** Modelled from the spec: one call of the decorated callable (without
    concurrency): derive the key, probe, and on a miss compute.  A hit
    hands out the stored value under either Mutation Guard policy. *)
Definition call (a : Args) (now : Timestamp) (st : State) : Result * State :=
  match key_of a with
  | inl u => (inl (UnhashableArgumentError u), st)
  | inr k =>
      match probe cfg k now st with
      | (Some e, st') => (inr (value e), st')
      | (None, st') => compute a k now st'
      end
  end.

(** Modelled from the spec: whether these arguments derive key [k]. *)
Definition has_key (k : CallKey) (a : Args) : bool :=
  match key_of a with
  | inr k' => bool_decide (k' = k)
  | inl _ => false
  end.

(** Modelled from the spec: the number of runs of the wrapped callable
    recorded for a key. *)
Definition runs_of (k : CallKey) (l : list Args) : nat :=
  length (filter (fun a => has_key k a = true) l).

End Call.

End Engine.

Arguments CacheEntry : clear implicits.
Arguments CacheConfig : clear implicits.
Arguments StoreOp : clear implicits.
Arguments Disk CallKey {_ _} V.
Arguments PersistError : clear implicits.
Arguments State CallKey {_ _} V Args.
Arguments CallError : clear implicits.
Arguments Result : clear implicits.

Abbreviation Store K V := (list (CacheEntry K V)).

End Engine.

(* ===================================================================== *)
(** * Part III: concurrent callers of one cache instance                  *)
(* ===================================================================== *)

(** The single-flight mechanism, too, is code of the successors; it is
    modelled from the specification as an interleaving of atomic steps of
    callers that share one cache instance. *)

Module SingleFlight.
Import Engine.

Section SingleFlight.
Context {CallKey : Type} `{!EqDecision CallKey, !Countable CallKey}.
Context {V Args Exn FunctionIdentity HashFuncRegistry : Type}.

(** Modelled from the spec: where a caller of the decorated callable
    stands.  [Idle]: the call has not begun.  [Computing k]: the caller
    missed on [k] and runs the wrapped callable.  [Waiting k]: the caller
    missed on [k] while another caller computes it, and blocks.
    [Done r]: the call has returned [r] or raised it. *)
Inductive Status : Type :=
| Idle
| Computing (k : CallKey)
| Waiting (k : CallKey)
| Done (r : Result V Exn).

(** Modelled from the spec: a caller, with the arguments of its call. *)
Record Caller : Type := mkCaller {
  request : Args;
  status : Status
}.

(** Modelled from the spec: a cache instance shared by several callers.
    [inflight] holds the keys that are being computed (the per-key
    locks that are held). *)
Record System : Type := mkSystem {
  cache : State CallKey V Args;
  inflight : gset CallKey;
  callers : list Caller
}.

(** Modelled from the spec: a caller moves to another status. *)
Definition with_status (s : Status) (c : Caller) : Caller :=
  {| request := request c; status := s |}.

(** Modelled from the spec: the end of a computation hands its outcome,
    value or failure, to every caller that waits on the key. *)
Definition deliver (k : CallKey) (r : Result V Exn) (c : Caller) : Caller :=
  match status c with
  | Waiting k' => if decide (k' = k) then with_status (Done r) c else c
  | _ => c
  end.

Section Step.
Variable derive :
  FunctionIdentity -> Args -> HashFuncRegistry -> Unhashable + CallKey.
Variable cfg : CacheConfig HashFuncRegistry.
Variable identity : FunctionIdentity.
Variable f : Args -> Exn + V.

(** Modelled from the spec: one atomic step of caller [i] at time [now].
    An idle caller derives its key and probes the cache: on a hit it
    returns; on a miss it starts the computation unless one is in flight
    for the key, in which case it waits.  A computing caller finishes:
    the outcome is written as in [compute] and handed to the waiters.
    Waiting and returned callers cannot step. *)
Definition step (i : nat) (now : Timestamp) (sys : System) : option System :=
  match callers sys !! i with
  | None => None
  | Some c =>
      match status c with
      | Idle =>
          match key_of derive cfg identity (request c) with
          | inl u =>
              Some {| cache := cache sys;
                      inflight := inflight sys;
                      callers :=
                        <[i := with_status
                                 (Done (inl (UnhashableArgumentError u))) c]>
                          (callers sys) |}
          | inr k =>
              match probe cfg k now (cache sys) with
              | (Some e, st') =>
                  Some {| cache := st';
                          inflight := inflight sys;
                          callers :=
                            <[i := with_status (Done (inr (value e))) c]>
                              (callers sys) |}
              | (None, st') =>
                  if decide (k ∈ inflight sys) then
                    Some {| cache := st';
                            inflight := inflight sys;
                            callers :=
                              <[i := with_status (Waiting k) c]>
                                (callers sys) |}
                  else
                    Some {| cache := st';
                            inflight := {[k]} ∪ inflight sys;
                            callers :=
                              <[i := with_status (Computing k) c]>
                                (callers sys) |}
              end
          end
      | Computing k =>
          let '(r, st') := compute cfg f (request c) k now (cache sys) in
          Some {| cache := st';
                  inflight := inflight sys ∖ {[k]};
                  callers :=
                    deliver k r
                      <$> <[i := with_status (Done r) c]> (callers sys) |}
      | Waiting _ => None
      | Done _ => None
      end
  end.

(** Modelled from the spec: a schedule of the concurrent callers: which
    caller steps, and when. *)
Definition Schedule : Type := list (nat * Timestamp).

(** Modelled from the spec: the system after a schedule; [None] when the
    schedule asks a blocked or returned caller to step. *)
Fixpoint exec (sched : Schedule) (sys : System) : option System :=
  match sched with
  | [] => Some sys
  | (i, now) :: rest =>
      match step i now sys with
      | Some sys' => exec rest sys'
      | None => None
      end
  end.

(** Modelled from the spec: the callers that a schedule lets step. *)
Definition steppers (sched : Schedule) : list nat := fst <$> sched.

(** Modelled from the spec: before any call, every caller is idle and
    nothing is in flight. *)
Definition initial (sys : System) : Prop :=
  inflight sys = ∅ /\ Forall (fun c => status c = Idle) (callers sys).

(** Modelled from the spec: the systems that callers can bring about. *)
Definition reachable (sys : System) : Prop :=
  exists sys0 sched, initial sys0 /\ exec sched sys0 = Some sys.

(** Modelled from the spec: a caller whose arguments derive key [k]. *)
Definition calls_key (k : CallKey) (c : Caller) : Prop :=
  key_of derive cfg identity (request c) = inr k.

(** Modelled from the spec: a caller that has missed on [k] and has not
    returned yet. *)
Definition pending (k : CallKey) (c : Caller) : Prop :=
  status c = Computing k \/ status c = Waiting k.

(** Modelled from the spec: a caller that has received [r]. *)
Definition returned (r : Result V Exn) (c : Caller) : Prop :=
  status c = Done r.

(** Modelled from the spec: a caller that has received a result. *)
Definition has_returned (c : Caller) : Prop :=
  exists r, status c = Done r.

(** What holds of every system that callers can bring about: a caller that
    computes or waits on a key holds a request for that key and the key is
    in flight; no two callers compute the same key; and a key is in flight
    only while some caller computes it. *)
Definition consistent (sys : System) : Prop :=
  (forall i c k, callers sys !! i = Some c -> status c = Computing k ->
                 k ∈ inflight sys /\ calls_key k c)
  /\ (forall i c k, callers sys !! i = Some c -> status c = Waiting k ->
                    k ∈ inflight sys /\ calls_key k c)
  /\ (forall i j c c' k,
        callers sys !! i = Some c -> callers sys !! j = Some c' ->
        status c = Computing k -> status c' = Computing k -> i = j)
  /\ (forall k, k ∈ inflight sys ->
                exists i c, callers sys !! i = Some c
                            /\ status c = Computing k).

(** Modelled from the spec: whether a caller runs the callable for [k]. *)
Definition is_computing (k : CallKey) (c : Caller) : bool :=
  match status c with
  | Computing k' => bool_decide (k' = k)
  | _ => false
  end.

(** Modelled from the spec: the callers that run the wrapped callable
    for [k]. *)
Definition computing (k : CallKey) (sys : System) : list Caller :=
  filter (fun c => is_computing k c = true) (callers sys).

(** The step of an idle caller, seen from outside: only its own status
    moves, to [s]. *)
Definition begins (i : nat) (c : Caller) (s : Status) (sys sys' : System)
  : Prop :=
  status c = Idle
  /\ callers sys' = <[i := with_status s c]> (callers sys)
  /\ log (cache sys') = log (cache sys)
  /\ ((exists r, s = Done r /\ inflight sys' = inflight sys)
      \/ (exists k, s = Waiting k /\ calls_key k c /\ k ∈ inflight sys
                    /\ inflight sys' = inflight sys)
      \/ (exists k, s = Computing k /\ calls_key k c /\ (k ∉ inflight sys)
                    /\ inflight sys' = {[k]} ∪ inflight sys)).

(** The step of a computing caller, seen from outside: it returns the
    outcome of its run, and so does every caller that waits on the key. *)
Definition finishes (i : nat) (c : Caller) (k : CallKey) (sys sys' : System)
  : Prop :=
  status c = Computing k
  /\ callers sys'
     = deliver k (outcome f (request c))
         <$> <[i := with_status (Done (outcome f (request c))) c]>
               (callers sys)
  /\ inflight sys' = inflight sys ∖ {[k]}
  /\ log (cache sys') = log (cache sys) ++ [request c].

(** Every caller of [k] has missed and has not returned. *)
Definition all_pending (k : CallKey) (sys : System) : Prop :=
  forall j c, callers sys !! j = Some c -> calls_key k c -> pending k c.

(** Every caller of [k] has returned [r]. *)
Definition all_returned (k : CallKey) (r : Result V Exn) (sys : System)
  : Prop :=
  forall j c, callers sys !! j = Some c -> calls_key k c -> returned r c.

(** The callers of [k] stand in [sys'] where they stood in [sys]. *)
Definition same_on (k : CallKey) (sys sys' : System) : Prop :=
  forall j c, callers sys !! j = Some c -> calls_key k c ->
              callers sys' !! j = Some c.

End Step.

End SingleFlight.

Arguments Status : clear implicits.
Arguments Caller : clear implicits.
Arguments System CallKey {_ _} V Args Exn.

End SingleFlight.

(* ===================================================================== *)
(** * Concrete instances                                                  *)
(* ===================================================================== *)

Module Demo.
Import Facade.

(** ** A facade instance: callables and hash registries are named by
    strings, [ttl] is a number of seconds, and a successor answers with a
    record of how it was called. *)

Definition PyFunc : Type := string.
Definition PyHashFuncs : Type := list (string * string).
Definition PySeconds : Type := Z.
Definition Val : Type := PyVal PyFunc PyHashFuncs PySeconds.
Definition Decorated : Type :=
  (Successor * list Val * Kwargs PyFunc PyHashFuncs PySeconds)%type.

Definition docs_url : string := "https://docs.streamlit.io/develop/concepts/architecture/caching".

(** The world counts the notices shown so far. *)
Definition count_notice (msg : string) (shown : nat) : nat := S shown.

Definition answer (s : Successor) (pos : list Val)
  (kw : Kwargs PyFunc PyHashFuncs PySeconds) (shown : nat)
  : nat * (Decorated + string) :=
  (shown, inl (s, pos, kw)).

(** [st.cache(fetch, persist=True, allow_output_mutation=True, ttl=60)] *)
Definition mutable_args : CacheArgs PyFunc PyHashFuncs PySeconds :=
  {| func := Some "fetch_and_clean_data";
     persist := true;
     allow_output_mutation := true;
     show_spinner := true;
     suppress_st_warning := false;
     hash_funcs := None;
     max_entries := None;
     ttl := Some 60 |}.

(** The same call with [persist=False]. *)
Definition mutable_args_no_persist : CacheArgs PyFunc PyHashFuncs PySeconds :=
  {| func := Some "fetch_and_clean_data";
     persist := false;
     allow_output_mutation := true;
     show_spinner := true;
     suppress_st_warning := false;
     hash_funcs := None;
     max_entries := None;
     ttl := Some 60 |}.

(** [st.cache(persist=True, suppress_st_warning=True)], the decorator
    factory form. *)
Definition factory_args : CacheArgs PyFunc PyHashFuncs PySeconds :=
  {| func := None;
     persist := true;
     allow_output_mutation := false;
     show_spinner := true;
     suppress_st_warning := true;
     hash_funcs := None;
     max_entries := Some 2;
     ttl := None |}.

(** The same call with [suppress_st_warning=False]. *)
Definition factory_args_warn : CacheArgs PyFunc PyHashFuncs PySeconds :=
  {| func := None;
     persist := true;
     allow_output_mutation := false;
     show_spinner := true;
     suppress_st_warning := false;
     hash_funcs := None;
     max_entries := Some 2;
     ttl := None |}.

(** A successor that answers once and raises from the second call on;
    the world counts the notices, which come one per call. *)
Definition answer_once (s : Successor) (pos : list Val)
  (kw : Kwargs PyFunc PyHashFuncs PySeconds) (shown : nat)
  : nat * (Decorated + string) :=
  match shown with
  | 1%nat => (shown, inl (s, pos, kw))
  | _ => (shown, inr "StreamlitAPIException")
  end.

End Demo.

Module EngineDemo.
Import Engine SingleFlight.

(** ** An engine instance: a cached [fetch(url)].  Keys are strings made
    of the callable's name and the URL; the empty URL stands for an
    argument that cannot be hashed; fetching ["down"] raises. *)

Definition derive_url (identity : string) (url : string) (registry : unit)
  : Unhashable + string :=
  if String.eqb url ""
  then inl {| argument := "url"; type_name := "NoneType" |}
  else inr (identity +:+ ":" +:+ url).

Definition fetch (url : string) : string + nat :=
  if String.eqb url "down" then inl "ConnectionError"
  else inr (String.length url).

(** [@st.cache] with the defaults. *)
Definition plain : CacheConfig unit :=
  {| max_entries := None; ttl := None; persist := false;
     hash_funcs := tt; mutation_policy := IsolatedCopy |}.

(** [@st.cache(max_entries=2, ttl=10, persist=True)] *)
Definition bounded : CacheConfig unit :=
  {| max_entries := Some 2%N; ttl := Some 10; persist := true;
     hash_funcs := tt; mutation_policy := IsolatedCopy |}.

Definition fresh : State string nat string :=
  {| entries := [];
     disk := {| files := ∅; writable := true |};
     reports := [];
     log := [] |}.

Definition entry_A : CacheEntry string nat :=
  {| key := "fetch:A"; value := 1%nat; created_at := 0; last_touch := 0 |}.

Definition entry_B : CacheEntry string nat :=
  {| key := "fetch:B"; value := 1%nat; created_at := 3; last_touch := 3 |}.

(** A cache that holds [entry_A] in memory and on disk. *)
Definition warm : State string nat string :=
  {| entries := [entry_A];
     disk := {| files := {[ "fetch:A" := entry_A ]}; writable := true |};
     reports := [];
     log := ["A"] |}.

(** Reads and writes on a store of two: K1, K2, K3 are put in this order
    and K1 is read again and again. *)
Definition access_pattern : list (StoreOp string nat) :=
  [ OpPut "K1" 1%nat 0; OpGet "K1"; OpPut "K2" 2%nat 1; OpGet "K1";
    OpPut "K3" 3%nat 2; OpGet "K1"; OpGet "K2"; OpGet "K1" ].

(** Four callers: three ask for ["A"], one for ["B"]. *)
Definition four_idle : System string nat string string :=
  {| cache := fresh;
     inflight := ∅;
     callers := [ {| request := "A"; status := Idle |};
                  {| request := "A"; status := Idle |};
                  {| request := "A"; status := Idle |};
                  {| request := "B"; status := Idle |} ] |}.

(** All four have missed: callers 0 and 3 compute, callers 1 and 2 wait. *)
Definition all_missed : System string nat string string :=
  {| cache := fresh;
     inflight := {[ "fetch:A"; "fetch:B" ]};
     callers := [ {| request := "A"; status := Computing "fetch:A" |};
                  {| request := "A"; status := Waiting "fetch:A" |};
                  {| request := "A"; status := Waiting "fetch:A" |};
                  {| request := "B"; status := Computing "fetch:B" |} ] |}.

Definition misses : Schedule := [(0%nat, 0); (3%nat, 0); (1%nat, 1); (2%nat, 1)].

Definition finishes_B_then_A : Schedule := [(3%nat, 3); (0%nat, 4)].

(** The flights have ended: ["B"] was fetched at 3 and ["A"] at 4. *)
Definition all_served : System string nat string string :=
  {| cache :=
       {| entries := [ {| key := "fetch:B"; value := 1%nat;
                          created_at := 3; last_touch := 3 |};
                       {| key := "fetch:A"; value := 1%nat;
                          created_at := 4; last_touch := 4 |} ];
          disk := {| files := ∅; writable := true |};
          reports := [];
          log := ["B"; "A"] |};
     inflight := ∅;
     callers := [ {| request := "A"; status := Done (inr 1%nat) |};
                  {| request := "A"; status := Done (inr 1%nat) |};
                  {| request := "A"; status := Done (inr 1%nat) |};
                  {| request := "B"; status := Done (inr 1%nat) |} ] |}.

(** Two callers of ["down"]: one computes, one waits. *)
Definition down_flight : System string nat string string :=
  {| cache := fresh;
     inflight := {[ "fetch:down" ]};
     callers := [ {| request := "down"; status := Computing "fetch:down" |};
                  {| request := "down"; status := Waiting "fetch:down" |} ] |}.

(** The flight for ["down"] has failed. *)
Definition down_failed : System string nat string string :=
  {| cache := {| entries := [];
                 disk := {| files := ∅; writable := true |};
                 reports := [];
                 log := ["down"] |};
     inflight := ∅;
     callers :=
       [ {| request := "down";
            status := Done (inl (ComputationError "ConnectionError")) |};
         {| request := "down";
            status := Done (inl (ComputationError "ConnectionError")) |} ] |}.

End EngineDemo.

(* ===================================================================== *)
(** * Properties of the facade                                            *)
(* ===================================================================== *)

Section FacadeProperties.
Import Facade.
Context {Func HashFuncsDict Float Ret Exn W : Type}.
Variable CACHE_DOCS_URL : string.
Variable on_warning : string -> W -> W.
Variable on_successor :
  Successor -> list (PyVal Func HashFuncsDict Float)
  -> Kwargs Func HashFuncsDict Float -> W -> W * (Ret + Exn).

Local Abbreviation Args := (CacheArgs Func HashFuncsDict Float).
Local Abbreviation exec_cache a w :=
  (run on_warning on_successor (cache CACHE_DOCS_URL a) w).

(** The whole run of [cache], spelled out: the notice, then one call of
    the selected successor in the world the notice left, whose answer is
    the answer of [cache]. *)
Lemma run_cache (a : Args) (w : W) :
  let w1 := on_warning (deprecation_message CACHE_DOCS_URL) w in
  let pos := [opt_val VFunc (func a)] in
  let kw := if allow_output_mutation a
            then resource_kwargs a else data_kwargs a in
  exec_cache a w =
    {| trace := [EvDeprecation (deprecation_message CACHE_DOCS_URL);
                 EvCall (selected a) pos kw];
       world := fst (on_successor (selected a) pos kw w1);
       result := snd (on_successor (selected a) pos kw w1) |}.
Proof.
  unfold selected. cbn.
  destruct (allow_output_mutation a); cbn;
    match goal with
    | |- context [on_successor ?s ?p ?k ?w] =>
        destruct (on_successor s p k w) as [w' [r | e]]
    end; reflexivity.
Qed.

Lemma resource_kwargs_common (a : Args) :
  forwards_common a [opt_val VFunc (func a)] (resource_kwargs a).
Proof. repeat split. Qed.

Lemma data_kwargs_common (a : Args) :
  forwards_common a [opt_val VFunc (func a)] (data_kwargs a).
Proof. repeat split. Qed.

(** C1. Every invocation of [cache] calls exactly one successor, and which
    one is read off [allow_output_mutation] alone: [st.cache_resource] when
    the flag is true, [st.cache_data] when it is false. *)
Theorem cache_dispatches_on_allow_output_mutation (a : Args) (w : W) :
  successor_calls (trace (exec_cache a w))
  = [if allow_output_mutation a then st_cache_resource else st_cache_data].
Proof. rewrite run_cache. reflexivity. Qed.

(** C2 (amended). Whichever successor the flag selects, it is called with
    [func] and with [show_spinner], [hash_funcs], [max_entries] and [ttl]
    as the facade received them; [persist] is passed to [st.cache_data]
    and is not passed to [st.cache_resource]. *)
Theorem cache_forwards_common_options (a : Args) (w : W) :
  exists pos kw,
    trace (exec_cache a w)
    = [EvDeprecation (deprecation_message CACHE_DOCS_URL);
       EvCall (selected a) pos kw]
    /\ forwards_common a pos kw
    /\ kwarg "persist" kw
       = if allow_output_mutation a then None else Some (VBool (persist a)).
Proof.
  rewrite run_cache. cbn.
  eexists _, _. split; [reflexivity |].
  destruct (allow_output_mutation a); split;
    auto using resource_kwargs_common, data_kwargs_common.
Qed.

(** C3. Every invocation of [cache], with [func] given or not, shows the
    deprecation notice first; the successor is called after it, in the
    world the notice left, and its answer is what [cache] returns. *)
Theorem cache_warns_before_forwarding (a : Args) (w : W) :
  exists call,
    trace (exec_cache a w)
    = EvDeprecation (deprecation_message CACHE_DOCS_URL) :: [call]
    /\ successor_calls [call] = [selected a]
    /\ (exists pos kw,
          call = EvCall (selected a) pos kw
          /\ (world (exec_cache a w), result (exec_cache a w))
             = on_successor (selected a) pos kw
                 (on_warning (deprecation_message CACHE_DOCS_URL) w)).
Proof.
  rewrite run_cache. cbn.
  eexists. split; [reflexivity |]. split; [reflexivity |].
  eexists _, _. split; [reflexivity |].
  symmetry. apply surjective_pairing.
Qed.

(** C9. Two invocations of [cache] that differ only in
    [suppress_st_warning] behave alike: same notice, same successor called
    with the same arguments, same world, same answer. *)
Theorem suppress_st_warning_is_ignored (a b : Args) (w : W) :
  same_but_suppress_st_warning a b ->
  exec_cache a w = exec_cache b w.
Proof.
  intros (Hf & Hp & Hm & Hs & Hh & Hx & Ht).
  rewrite !run_cache. unfold selected, resource_kwargs, data_kwargs.
  rewrite Hf, Hp, Hm, Hs, Hh, Hx, Ht. reflexivity.
Qed.

(** C10. With [allow_output_mutation] true, two invocations that differ
    only in [persist] behave alike, and the call to [st.cache_resource]
    carries no [persist]; on any invocation, [persist] reaches a successor
    exactly when the flag is false, and that successor is [st.cache_data]. *)
Theorem persist_is_ignored_when_mutation_allowed (a b c : Args) (w : W) :
  allow_output_mutation a = true ->
  same_but_persist a b ->
  exec_cache a w = exec_cache b w
  /\ successor_calls (trace (exec_cache a w)) = [st_cache_resource]
  /\ persist_kwargs (trace (exec_cache a w)) = []
  /\ persist_kwargs (trace (exec_cache c w))
     = (if allow_output_mutation c then [] else [VBool (persist c)])
  /\ successor_calls (trace (exec_cache c w))
     = [if allow_output_mutation c then st_cache_resource else st_cache_data].
Proof.
  intros Ha (Hf & Hm & Hs & _ & Hh & Hx & Ht).
  rewrite !run_cache. unfold selected, resource_kwargs.
  rewrite <- Hm, Ha, Hf, Hs, Hh, Hx, Ht. cbn.
  repeat split; destruct (allow_output_mutation c); reflexivity.
Qed.

End FacadeProperties.

(** C2, as stated, fails: with [allow_output_mutation=True] the call to
    [st.cache_resource] has no [persist] among its arguments. *)
Lemma cache_resource_is_not_passed_persist :
  ~ Facade.all_five_forwarded Demo.mutable_args
      (Facade.trace
         (Facade.run Demo.count_notice Demo.answer
            (Facade.cache Demo.docs_url Demo.mutable_args) 0%nat)).
Proof.
  intros H.
  destruct (H Facade.st_cache_resource
              [Facade.opt_val Facade.VFunc (Facade.func Demo.mutable_args)]
              (Facade.resource_kwargs Demo.mutable_args)) as [Hp _].
  - cbn. set_solver.
  - cbn in Hp. discriminate Hp.
Qed.

(** [st.cache(persist=True, max_entries=2)] behaves the same with and
    without [suppress_st_warning=True]. *)
Lemma suppress_st_warning_is_ignored_witness :
  Facade.run Demo.count_notice Demo.answer
    (Facade.cache Demo.docs_url Demo.factory_args) 0%nat
  = Facade.run Demo.count_notice Demo.answer
      (Facade.cache Demo.docs_url Demo.factory_args_warn) 0%nat.
Proof.
  apply (suppress_st_warning_is_ignored Demo.docs_url Demo.count_notice
           Demo.answer Demo.factory_args Demo.factory_args_warn 0%nat).
  repeat split.
Defined.

(** [st.cache(fetch, allow_output_mutation=True, ttl=60)] behaves the same
    with [persist=True] and with [persist=False]. *)
Lemma persist_is_ignored_when_mutation_allowed_witness :
  Facade.run Demo.count_notice Demo.answer
    (Facade.cache Demo.docs_url Demo.mutable_args) 0%nat
  = Facade.run Demo.count_notice Demo.answer
      (Facade.cache Demo.docs_url Demo.mutable_args_no_persist) 0%nat.
Proof.
  apply (persist_is_ignored_when_mutation_allowed Demo.docs_url
           Demo.count_notice Demo.answer Demo.mutable_args
           Demo.mutable_args_no_persist Demo.factory_args 0%nat).
  - reflexivity.
  - repeat split.
Defined.

(* ===================================================================== *)
(** * Further properties of the facade                                    *)
(* ===================================================================== *)

Section FacadeFurtherProperties.
Import Facade.
Context {Func HashFuncsDict Float Ret Exn W : Type}.
Variable CACHE_DOCS_URL : string.
Variable on_warning : string -> W -> W.
Variable on_successor :
  Successor -> list (PyVal Func HashFuncsDict Float)
  -> Kwargs Func HashFuncsDict Float -> W -> W * (Ret + Exn).

Local Abbreviation Args := (CacheArgs Func HashFuncsDict Float).
Local Abbreviation Value := (PyVal Func HashFuncsDict Float).
Local Abbreviation exec_cache a w :=
  (run on_warning on_successor (cache CACHE_DOCS_URL a) w).
Local Abbreviation exec_script l w :=
  (run_script CACHE_DOCS_URL on_warning on_successor l w).

(** The trace of one invocation is its footprint, whatever the handlers
    answer. *)
Lemma trace_cache (a : Args) (w : W) :
  trace (exec_cache a w) = footprint CACHE_DOCS_URL a.
Proof.
  unfold footprint, selected. cbn.
  destruct (allow_output_mutation a); cbn;
    match goal with
    | |- context [on_successor ?s ?p ?k ?w] =>
        destruct (on_successor s p k w) as [w' [r | e]]
    end; reflexivity.
Qed.

Lemma opt_val_inj {A} (inj : A -> Value) (x y : option A) :
  (forall u v, inj u = inj v -> u = v) ->
  (forall u, inj u <> VNone) ->
  opt_val inj x = opt_val inj y -> x = y.
Proof.
  intros Hinj Hnone. destruct x as [u |], y as [v |]; cbn; intros H.
  - f_equal. apply Hinj. exact H.
  - destruct (Hnone u H).
  - destruct (Hnone v (eq_sym H)).
  - reflexivity.
Qed.

Lemma func_inj (x y : option Func) :
  opt_val (VFunc : Func -> Value) x = opt_val VFunc y -> x = y.
Proof. apply opt_val_inj; [intros u v [= ->]; reflexivity | discriminate]. Qed.

Lemma hash_funcs_inj (x y : option HashFuncsDict) :
  opt_val (VHashFuncs : HashFuncsDict -> Value) x = opt_val VHashFuncs y ->
  x = y.
Proof. apply opt_val_inj; [intros u v [= ->]; reflexivity | discriminate]. Qed.

Lemma max_entries_inj (x y : option Z) :
  opt_val (VInt : Z -> Value) x = opt_val VInt y -> x = y.
Proof. apply opt_val_inj; [intros u v [= ->]; reflexivity | discriminate]. Qed.

Lemma ttl_inj (x y : option Float) :
  opt_val (VFloat : Float -> Value) x = opt_val VFloat y -> x = y.
Proof. apply opt_val_inj; [intros u v [= ->]; reflexivity | discriminate]. Qed.

(** X1. The calls of [cache] lose nothing but what is ignored.  Two
    invocations make the same external calls exactly when they agree on
    [func], [allow_output_mutation], [show_spinner], [hash_funcs],
    [max_entries] and [ttl], and also on [persist] unless
    [allow_output_mutation] is true. *)
Theorem cache_calls_tell_the_options (a b : Args) (w w' : W) :
  trace (run on_warning on_successor (cache CACHE_DOCS_URL a) w)
  = trace (run on_warning on_successor (cache CACHE_DOCS_URL b) w')
  <-> func a = func b
      /\ allow_output_mutation a = allow_output_mutation b
      /\ show_spinner a = show_spinner b
      /\ hash_funcs a = hash_funcs b
      /\ max_entries a = max_entries b
      /\ ttl a = ttl b
      /\ (allow_output_mutation a = true \/ persist a = persist b).
Proof.
  rewrite !trace_cache. unfold footprint, selected. split.
  - intros [= Hs Hpos Hkw]. apply func_inj in Hpos.
    destruct (allow_output_mutation a), (allow_output_mutation b);
      try discriminate Hs.
    + injection Hkw as Hsp Hh Hm Ht.
      apply hash_funcs_inj in Hh. apply max_entries_inj in Hm.
      apply ttl_inj in Ht. auto 10.
    + injection Hkw as Hp Hsp Hh Hm Ht.
      apply hash_funcs_inj in Hh. apply max_entries_inj in Hm.
      apply ttl_inj in Ht. auto 10.
  - intros (Hf & Hm & Hs & Hh & Hx & Ht & Hp).
    unfold resource_kwargs, data_kwargs.
    rewrite <- Hm, Hf, Hs, Hh, Hx, Ht.
    destruct (allow_output_mutation a); [reflexivity |].
    destruct Hp as [Hp | ->]; [discriminate Hp | reflexivity].
Qed.

(** X2. What [cache] never passes on.  A successor is called with one
    positional argument, [func], and with keyword arguments only among
    [persist], [show_spinner], [hash_funcs], [max_entries] and [ttl], each
    at most once; [allow_output_mutation] and [suppress_st_warning] are
    never passed to a successor. *)
Theorem cache_never_forwards_its_own_flags (a : Args) (w : W)
  (s : Successor) (pos : list Value) (kw : Kwargs Func HashFuncsDict Float) :
  EvCall s pos kw ∈ trace (exec_cache a w) ->
  pos = [opt_val VFunc (func a)]
  /\ NoDup (keywords kw)
  /\ Forall (fun name => name ∈ forwardable) (keywords kw)
  /\ kwarg "allow_output_mutation" kw = None
  /\ kwarg "suppress_st_warning" kw = None
  /\ kwarg "func" kw = None.
Proof.
  rewrite trace_cache. unfold footprint.
  intros Hin. apply elem_of_cons in Hin as [Hin | Hin]; [discriminate Hin |].
  apply list_elem_of_singleton in Hin. injection Hin as -> -> ->.
  split; [reflexivity |].
  destruct (allow_output_mutation a); cbn.
  - split; [apply (bool_decide_unpack _); reflexivity |].
    split; [| auto].
    repeat (apply Forall_cons; split;
            [apply (bool_decide_unpack _); reflexivity |]).
    apply Forall_nil_2.
  - split; [apply (bool_decide_unpack _); reflexivity |].
    split; [| auto].
    repeat (apply Forall_cons; split;
            [apply (bool_decide_unpack _); reflexivity |]).
    apply Forall_nil_2.
Qed.

(** X3. The calls of [cache] are fixed by its arguments.  Which notice is
    shown and which successor is called with what does not depend on the
    state of the world, on what the notice helper does, or on what the
    successor answers or raises. *)
Theorem cache_calls_depend_on_arguments_only (a : Args) (w w' : W)
  (on_warning' : string -> W -> W)
  (on_successor' :
     Successor -> list Value -> Kwargs Func HashFuncsDict Float -> W
     -> W * (Ret + Exn)) :
  trace (exec_cache a w)
  = trace (run on_warning' on_successor' (cache CACHE_DOCS_URL a) w').
Proof.
  rewrite trace_cache.
  unfold footprint, selected. cbn.
  destruct (allow_output_mutation a); cbn;
    match goal with
    | |- context [on_successor' ?s ?p ?k ?w] =>
        destruct (on_successor' s p k w) as [w1 [r | e]]
    end; reflexivity.
Qed.

Lemma run_script_begun (l : list Args) (w : W) :
  (begun (exec_script l w) <= length l)%nat
  /\ match raised (exec_script l w) with
     | None => length (answers (exec_script l w)) = length l
     | Some _ => (length (answers (exec_script l w)) < length l)%nat
     end.
Proof.
  unfold begun. revert w. induction l as [| a l IH]; intros w.
  - cbn. auto.
  - cbn [run_script]. destruct (result (exec_cache a w)) as [r | e];
      cbn [answers raised length].
    + specialize (IH (world (exec_cache a w))).
      destruct (raised (exec_script l (world (exec_cache a w)))); lia.
    + lia.
Qed.

(** The notices and the successor calls in the footprints of the first
    [n] invocations of a list. *)
Lemma footprints_read (l : list Args) (n : nat) :
  (n <= length l)%nat ->
  notices (mjoin (footprint CACHE_DOCS_URL <$> take n l))
  = replicate n (deprecation_message CACHE_DOCS_URL)
  /\ successor_calls (mjoin (footprint CACHE_DOCS_URL <$> take n l))
     = selected <$> take n l.
Proof.
  revert n. induction l as [| a l IH]; intros n Hn.
  - cbn in Hn. assert (n = 0%nat) as -> by lia. split; reflexivity.
  - destruct n as [| n]; [split; reflexivity |].
    cbn in Hn. destruct (IH n ltac:(lia)) as [IH1 IH2].
    cbn [take fmap list_fmap mjoin list_join].
    split.
    + unfold footprint at 1. cbn. f_equal. exact IH1.
    + unfold footprint at 1. cbn. f_equal. exact IH2.
Qed.

(** X4. [cache] keeps nothing between invocations.  In a script of several
    invocations, every invocation that is begun shows the notice anew and
    then calls its own successor: the trace is the footprints of the
    invocations begun, in order.  All are begun unless a successor raises,
    and then the ones after the raise make no call at all. *)
Theorem script_warns_at_every_invocation (l : list Args) (w : W) :
  script_trace (exec_script l w)
  = mjoin (footprint CACHE_DOCS_URL <$> take (begun (exec_script l w)) l)
  /\ (begun (exec_script l w) <= length l)%nat
  /\ match raised (exec_script l w) with
     | None => begun (exec_script l w) = length l
     | Some _ => True
     end
  /\ notices (script_trace (exec_script l w))
     = replicate (begun (exec_script l w))
         (deprecation_message CACHE_DOCS_URL)
  /\ successor_calls (script_trace (exec_script l w))
     = selected <$> take (begun (exec_script l w)) l.
Proof.
  assert (script_trace (exec_script l w)
          = mjoin (footprint CACHE_DOCS_URL
                     <$> take (begun (exec_script l w)) l)) as Htrace.
  { revert w. induction l as [| a l IH]; intros w; [reflexivity |].
    cbn [run_script]. destruct (result (exec_cache a w)) as [r | e].
    - unfold begun. cbn [answers raised script_trace length Nat.add take fmap
                         list_fmap mjoin list_join].
      rewrite trace_cache. f_equal. apply IH.
    - unfold begun. cbn [answers raised script_trace length Nat.add take fmap
                         list_fmap mjoin list_join].
      rewrite trace_cache, take_0. cbn [fmap list_fmap mjoin list_join].
      rewrite app_nil_r. reflexivity. }
  split; [exact Htrace |].
  split; [apply run_script_begun |].
  split.
  { pose proof (run_script_begun l w) as [_ H]. unfold begun.
    destruct (raised (exec_script l w)); [exact I | lia]. }
  rewrite Htrace.
  apply footprints_read. apply run_script_begun.
Qed.

End FacadeFurtherProperties.

(** Two decorator-factory calls that differ in [suppress_st_warning] make
    the same calls, and so agree on every other option. *)
Lemma cache_calls_tell_the_options_witness :
  Facade.func Demo.factory_args = Facade.func Demo.factory_args_warn
  /\ Facade.allow_output_mutation Demo.factory_args
     = Facade.allow_output_mutation Demo.factory_args_warn
  /\ Facade.show_spinner Demo.factory_args
     = Facade.show_spinner Demo.factory_args_warn
  /\ Facade.hash_funcs Demo.factory_args
     = Facade.hash_funcs Demo.factory_args_warn
  /\ Facade.max_entries Demo.factory_args
     = Facade.max_entries Demo.factory_args_warn
  /\ Facade.ttl Demo.factory_args = Facade.ttl Demo.factory_args_warn
  /\ (Facade.allow_output_mutation Demo.factory_args = true
      \/ Facade.persist Demo.factory_args
         = Facade.persist Demo.factory_args_warn).
Proof.
  apply (proj1 (cache_calls_tell_the_options Demo.docs_url Demo.count_notice
                  Demo.answer Demo.factory_args Demo.factory_args_warn
                  0%nat 0%nat)).
  reflexivity.
Defined.

(** The call that [st.cache(fetch, persist=True,
    allow_output_mutation=True, ttl=60)] makes to [st.cache_resource]. *)
Lemma cache_never_forwards_its_own_flags_witness :
  Facade.kwarg "allow_output_mutation"
    (Facade.resource_kwargs Demo.mutable_args) = None
  /\ Facade.kwarg "suppress_st_warning"
       (Facade.resource_kwargs Demo.mutable_args) = None.
Proof.
  destruct (cache_never_forwards_its_own_flags Demo.docs_url
              Demo.count_notice Demo.answer Demo.mutable_args 0%nat
              Facade.st_cache_resource
              [Facade.opt_val Facade.VFunc (Facade.func Demo.mutable_args)]
              (Facade.resource_kwargs Demo.mutable_args))
    as (_ & _ & _ & Hm & Hs & _).
  - right. left.
  - split; assumption.
Defined.

(** Three decorations with a successor that raises at the second: two
    notices and two successor calls, none for the third. *)
Example script_stops_at_the_raise :
  let o := Facade.run_script Demo.docs_url Demo.count_notice Demo.answer_once
             [Demo.factory_args; Demo.mutable_args; Demo.factory_args_warn]
             0%nat in
  Facade.begun o = 2%nat
  /\ Facade.raised o = Some "StreamlitAPIException"
  /\ Facade.successor_calls (Facade.script_trace o)
     = [Facade.st_cache_data; Facade.st_cache_resource]
  /\ Facade.script_world o = 2%nat.
Proof. vm_compute. auto. Qed.

(* ===================================================================== *)
(** * Properties of the Cache Store                                       *)
(* ===================================================================== *)

Section StoreProperties.
Import Engine.
Context {CallKey : Type} `{!EqDecision CallKey, !Countable CallKey}.
Context {V HashFuncRegistry : Type}.

Local Abbreviation Entry := (CacheEntry CallKey V).
Local Abbreviation Config := (CacheConfig HashFuncRegistry).

Implicit Types (s : Store CallKey V) (e o : Entry) (k : CallKey)
  (cfg : Config).

Lemma get_Some s k e : get k s = Some e -> e ∈ s /\ key e = k.
Proof.
  induction s as [| x s IH]; cbn; [discriminate |].
  destruct (decide (key x = k)) as [Hk | Hk].
  - intros [= ->]. split; [left | assumption].
  - intros H. destruct (IH H). split; [right |]; assumption.
Qed.

Lemma get_None s k : get k s = None <-> forall e, e ∈ s -> key e <> k.
Proof.
  induction s as [| x s IH]; cbn.
  - split; [intros _ e He; inversion He | reflexivity].
  - destruct (decide (key x = k)) as [Hk | Hk].
    + split; [discriminate |]. intros H. destruct (H x); [left | assumption].
    + rewrite IH. split.
      * intros H e He. inversion He; subst; auto.
      * intros H e He. apply H. right. assumption.
Qed.

Lemma get_app s k e :
  get k (s ++ [e])
  = match get k s with
    | Some x => Some x
    | None => if decide (key e = k) then Some e else None
    end.
Proof.
  induction s as [| x s IH]; cbn; [reflexivity |].
  destruct (decide (key x = k)); [reflexivity | exact IH].
Qed.

Lemma get_remove s k k' :
  get k' (remove k s) = if decide (k' = k) then None else get k' s.
Proof.
  unfold remove. induction s as [| x s IH].
  - cbn. destruct (decide (k' = k)); reflexivity.
  - rewrite filter_cons. destruct (decide (key x <> k)) as [Hx | Hx].
    + cbn [get]. rewrite IH. destruct (decide (key x = k')) as [<- | Hk'];
        destruct (decide _); congruence.
    + apply dec_stable in Hx. rewrite IH. cbn [get].
      destruct (decide (k' = k)); [reflexivity |].
      destruct (decide (key x = k')); congruence.
Qed.

Lemma remove_absent s k : get k s = None -> remove k s = s.
Proof.
  rewrite get_None. intros H. unfold remove.
  induction s as [| x s IH]; [reflexivity |].
  rewrite filter_cons, decide_True by (apply H; left).
  f_equal. apply IH. intros e He. apply H. right. assumption.
Qed.

Lemma remove_subseteq s k : remove k s ⊆ s.
Proof. intros e. unfold remove. rewrite list_elem_of_filter. tauto. Qed.

Lemma remove_length s k : (length (remove k s) <= length s)%nat.
Proof. apply length_filter. Qed.

(** The oldest entry is in the store and no entry was created before it. *)
Lemma oldest_least s o :
  oldest s = Some o ->
  o ∈ s /\ forall e, e ∈ s -> created_at o <= created_at e.
Proof.
  revert o. induction s as [| x s IH]; cbn; [discriminate |].
  intros o. destruct (oldest s) as [m |] eqn:Hm.
  - destruct (IH m eq_refl) as [Hin Hle].
    case_bool_decide as Hlt; intros [= <-].
    + split; [right; assumption |].
      intros e He. inversion He; subst; [lia | auto].
    + split; [left |].
      intros e He. inversion He; subst; [lia |].
      specialize (Hle e ltac:(assumption)). lia.
  - intros [= <-]. destruct s as [| y s]; [| cbn in Hm; destruct (oldest s);
      [case_bool_decide |]; discriminate].
    split; [left |]. intros e He. inversion He; subst; [lia |].
    match goal with H : _ ∈ [] |- _ => inversion H end.
Qed.

Lemma oldest_None s : oldest s = None -> s = [].
Proof.
  destruct s as [| x s]; [reflexivity |]. cbn.
  destruct (oldest s); [case_bool_decide |]; discriminate.
Qed.

Lemma chronological_tail x s : chronological (x :: s) -> chronological s.
Proof.
  intros H i j e1 e2 H1 H2 Hij.
  apply (H (S i) (S j)); [assumption | assumption | lia].
Qed.

(** Under a clock that never runs backwards the oldest entry is the one
    that was inserted first. *)
Lemma oldest_chronological s : chronological s -> oldest s = head s.
Proof.
  induction s as [| x s IH]; [reflexivity |].
  intros Hc. cbn. rewrite IH by (eapply chronological_tail; eassumption).
  destruct s as [| y s]; [reflexivity |]. cbn.
  rewrite bool_decide_eq_false_2; [reflexivity |].
  specialize (Hc 0%nat 1%nat x y eq_refl eq_refl). lia.
Qed.

Lemma get_evict_None s k : get k s = None -> get k (evict s) = None.
Proof.
  intros H. unfold evict. destruct (oldest s); [| assumption].
  rewrite get_remove, H. destruct (decide _); reflexivity.
Qed.

Lemma get_insert_entry_eq cfg e s : get (key e) (insert_entry cfg e s) = Some e.
Proof.
  unfold insert_entry. destruct (get (key e) s) eqn:Hg.
  - rewrite get_app, get_remove, !decide_True by reflexivity. reflexivity.
  - rewrite get_app.
    assert (get (key e) (if is_full cfg s then evict s else s) = None) as ->.
    { destruct (is_full cfg s); [apply get_evict_None |]; assumption. }
    rewrite decide_True by reflexivity. reflexivity.
Qed.

Lemma get_insert_entry_absent cfg e s k :
  key e <> k -> get k s = None -> get k (insert_entry cfg e s) = None.
Proof.
  intros Hk Hg. unfold insert_entry. destruct (get (key e) s).
  - rewrite get_app, get_remove, Hg.
    destruct (decide (k = key e)); rewrite decide_False by assumption;
      reflexivity.
  - rewrite get_app.
    assert (get k (if is_full cfg s then evict s else s) = None) as ->.
    { destruct (is_full cfg s); [apply get_evict_None |]; assumption. }
    rewrite decide_False by assumption. reflexivity.
Qed.

(** Reads do not matter to what a sequence of operations leaves. *)
Lemma store_ops_reads cfg ops s :
  store_ops cfg ops s
  = store_ops cfg (filter (fun op => is_get op = false) ops) s.
Proof.
  unfold store_ops. revert s. induction ops as [| op ops IH]; intros s.
  - reflexivity.
  - rewrite filter_cons. destruct op as [k | k v now]; cbn.
    + rewrite decide_False by discriminate. apply IH.
    + rewrite decide_True by reflexivity. cbn. apply IH.
Qed.

Lemma get_touched touches s k :
  get k (touched touches <$> s) = touched touches <$> get k s.
Proof.
  induction s as [| x s IH]; [reflexivity |]. cbn.
  destruct (decide (key x = k)); [reflexivity | exact IH].
Qed.

Lemma remove_touched touches s k :
  remove k (touched touches <$> s) = touched touches <$> remove k s.
Proof.
  unfold remove. induction s as [| x s IH]; [reflexivity |].
  rewrite fmap_cons, !filter_cons. cbn [touched key].
  destruct (decide (key x <> k)); rewrite IH; reflexivity.
Qed.

Lemma oldest_touched touches s :
  oldest (touched touches <$> s) = touched touches <$> oldest s.
Proof.
  induction s as [| x s IH]; [reflexivity |].
  rewrite fmap_cons. cbn [oldest]. rewrite IH.
  destruct (oldest s) as [o |]; [| reflexivity]. cbn.
  case_bool_decide; reflexivity.
Qed.

Lemma evict_touched touches s :
  evict (touched touches <$> s) = touched touches <$> evict s.
Proof.
  unfold evict. rewrite oldest_touched.
  destruct (oldest s) as [o |]; [| reflexivity]. cbn.
  apply remove_touched.
Qed.

(** Which keys [put] leaves does not depend on when entries were read. *)
Lemma put_keys_touched cfg touches k v now s :
  keys (put cfg k v now (touched touches <$> s)) = keys (put cfg k v now s).
Proof.
  unfold put, insert_entry, keys. cbn [key].
  rewrite get_touched. destruct (get k s) as [x |]; cbn.
  - rewrite remove_touched, !fmap_app. f_equal.
    rewrite <- list_fmap_compose. reflexivity.
  - unfold is_full. rewrite length_fmap.
    destruct (match max_entries cfg with
              | Some m => bool_decide (N.of_nat (length s) = m)
              | None => false
              end).
    + rewrite evict_touched, !fmap_app. f_equal.
      rewrite <- list_fmap_compose. reflexivity.
    + rewrite !fmap_app. f_equal.
      rewrite <- list_fmap_compose. reflexivity.
Qed.

Lemma put_new_room cfg s k v now :
  is_full cfg s = false ->
  get k s = None ->
  put cfg k v now s
  = s ++ [{| key := k; value := v; created_at := now; last_touch := now |}].
Proof.
  intros Hroom Hnew. unfold put, insert_entry. cbn [key].
  rewrite Hnew, Hroom. reflexivity.
Qed.

Lemma put_new_full cfg s k v now :
  is_full cfg s = true ->
  get k s = None ->
  put cfg k v now s
  = evict s
    ++ [{| key := k; value := v; created_at := now; last_touch := now |}].
Proof.
  intros Hfull Hnew. unfold put, insert_entry. cbn [key].
  rewrite Hnew, Hfull. reflexivity.
Qed.

(** C5. FIFO eviction.  A [put] of a new key on a full store removes the
    entry with the oldest [created_at] and then appends the new entry;
    that entry is the first one inserted when the clock never ran
    backwards, and the choice ignores when entries were last read.  With
    [max_entries = 2], putting three distinct keys K1, K2, K3 in this
    order, with any reads in between and after, leaves exactly K2 and K3
    and not K1. *)
Theorem put_evicts_in_insertion_order :
  (forall cfg s k v now,
      is_full cfg s = true ->
      get k s = None ->
      put cfg k v now s
      = evict s ++ [{| key := k; value := v; created_at := now;
                       last_touch := now |}]
      /\ (forall o, oldest s = Some o ->
            evict s = remove (key o) s
            /\ o ∈ s
            /\ forall e, e ∈ s -> created_at o <= created_at e)
      /\ (chronological s -> oldest s = head s)
      /\ (forall touches,
            keys (put cfg k v now (touched touches <$> s))
            = keys (put cfg k v now s)))
  /\ (forall cfg k1 k2 k3 (v1 v2 v3 : V) t1 t2 t3
             (ops : list (StoreOp CallKey V)),
        max_entries cfg = Some 2%N ->
        k1 <> k2 -> k1 <> k3 -> k2 <> k3 ->
        t1 <= t2 ->
        filter (fun op => is_get op = false) ops
        = [OpPut k1 v1 t1; OpPut k2 v2 t2; OpPut k3 v3 t3] ->
        keys (store_ops cfg ops []) = [k2; k3]
        /\ get k1 (store_ops cfg ops []) = None
        /\ is_Some (get k2 (store_ops cfg ops []))
        /\ is_Some (get k3 (store_ops cfg ops []))).
Proof.
  split.
  - intros cfg s k v now Hfull Hnew. repeat split.
    + apply put_new_full; assumption.
    + unfold evict. rewrite H. reflexivity.
    + apply (oldest_least s o H).
    + apply (oldest_least s o H).
    + apply oldest_chronological.
    + intros touches. apply put_keys_touched.
  - intros cfg k1 k2 k3 v1 v2 v3 t1 t2 t3 ops Hmax H12 H13 H23 Ht Hops.
    rewrite store_ops_reads, Hops.
    assert (store_ops cfg
              [OpPut k1 v1 t1; OpPut k2 v2 t2; OpPut k3 v3 t3] []
            = [ {| key := k2; value := v2; created_at := t2;
                   last_touch := t2 |};
                {| key := k3; value := v3; created_at := t3;
                   last_touch := t3 |} ]) as ->.
    { unfold store_ops. cbn [foldl store_op].
      rewrite (put_new_room cfg [] k1 v1 t1);
        [| unfold is_full; rewrite Hmax; reflexivity | reflexivity].
      cbn [app].
      rewrite (put_new_room cfg [_] k2 v2 t2);
        [| unfold is_full; rewrite Hmax; reflexivity
         | cbn; rewrite decide_False by congruence; reflexivity].
      cbn [app].
      rewrite (put_new_full cfg [_; _] k3 v3 t3);
        [| unfold is_full; rewrite Hmax; reflexivity
         | cbn; rewrite !decide_False by congruence; reflexivity].
      unfold evict. cbn [oldest created_at app].
      rewrite bool_decide_eq_false_2 by lia. cbn [key].
      unfold remove. rewrite !filter_cons, filter_nil. cbn [key].
      rewrite decide_False by (intros H; apply H; reflexivity).
      rewrite decide_True by congruence. reflexivity. }
    cbn. rewrite !decide_False by congruence.
    rewrite !decide_True by reflexivity.
    rewrite decide_False by congruence. rewrite decide_True by reflexivity.
    repeat split; eauto.
Qed.

End StoreProperties.

(* ===================================================================== *)
(** * Properties of lookups and calls                                     *)
(* ===================================================================== *)

Section CallProperties.
Import Engine.
Context {CallKey : Type} `{!EqDecision CallKey, !Countable CallKey}.
Context {V Args Exn FunctionIdentity HashFuncRegistry : Type}.
Variable derive :
  FunctionIdentity -> Args -> HashFuncRegistry -> Unhashable + CallKey.
Variable cfg : CacheConfig HashFuncRegistry.
Variable identity : FunctionIdentity.
Variable f : Args -> Exn + V.

Local Abbreviation Entry := (CacheEntry CallKey V).
Local Abbreviation St := (State CallKey V Args).
Local Abbreviation key_of := (key_of derive cfg identity).
Local Abbreviation call := (call derive cfg identity f).
Local Abbreviation compute := (compute cfg f).
Local Abbreviation outcome := (outcome f).

Implicit Types (st : St) (e : Entry) (k : CallKey) (a b : Args)
  (now : Timestamp).

Lemma insert_entry_elem e x (s : Store CallKey V) :
  x ∈ insert_entry cfg e s -> x = e \/ x ∈ s.
Proof.
  unfold insert_entry. destruct (get (key e) s).
  - rewrite elem_of_app, list_elem_of_singleton.
    intros [Hx | ->]; [right | left; reflexivity].
    eapply remove_subseteq. eassumption.
  - rewrite elem_of_app, list_elem_of_singleton.
    intros [Hx | ->]; [right | left; reflexivity].
    destruct (is_full cfg s); [| assumption].
    unfold evict in Hx. destruct (oldest s); [| assumption].
    eapply remove_subseteq. eassumption.
Qed.

Lemma expired_spec e now :
  expired cfg e now = true
  <-> exists d, ttl cfg = Some d /\ d <= now - created_at e.
Proof.
  unfold expired, is_expired. destruct (ttl cfg) as [d |].
  - rewrite bool_decide_eq_true. split; [eauto |].
    intros (d' & [= <-] & H). assumption.
  - split; [discriminate | intros (d & Hd & _); discriminate].
Qed.

(** What the backing store answers is live, and a miss there changes
    nothing. *)
Lemma probe_disk_hit k now st e :
  fst (probe_disk cfg k now st) = Some e ->
  expired cfg e now = false
  /\ persist cfg = true /\ load k (disk st) = Some e.
Proof.
  unfold probe_disk. destruct (persist cfg); [| discriminate].
  destruct (load k (disk st)) as [x |]; [| discriminate].
  destruct (expired cfg x now) eqn:Hx; [discriminate |].
  cbn. intros [= <-]. auto.
Qed.

Lemma probe_disk_miss k now st :
  fst (probe_disk cfg k now st) = None -> probe_disk cfg k now st = (None, st).
Proof.
  unfold probe_disk. destruct (persist cfg); [| reflexivity].
  destruct (load k (disk st)) as [x |]; [| reflexivity].
  destruct (expired cfg x now); [reflexivity | discriminate].
Qed.

Lemma probe_disk_state k now st :
  disk (snd (probe_disk cfg k now st)) = disk st
  /\ log (snd (probe_disk cfg k now st)) = log st
  /\ reports (snd (probe_disk cfg k now st)) = reports st.
Proof.
  unfold probe_disk. destruct (persist cfg); [| auto].
  destruct (load k (disk st)) as [x |]; [| auto].
  destruct (expired cfg x now); auto.
Qed.

(** A lookup never runs the wrapped callable and never writes to disk. *)
Lemma probe_state k now st :
  disk (snd (probe cfg k now st)) = disk st
  /\ log (snd (probe cfg k now st)) = log st
  /\ reports (snd (probe cfg k now st)) = reports st.
Proof.
  unfold probe. destruct (get k (entries st)) as [e |].
  - destruct (expired cfg e now); [| auto].
    apply (probe_disk_state k now
             (with_entries (remove k (entries st)) st)).
  - apply probe_disk_state.
Qed.

(** Whatever a lookup answers is live at the time of the lookup. *)
Lemma probe_hit_live k now st e :
  fst (probe cfg k now st) = Some e -> expired cfg e now = false.
Proof.
  unfold probe. destruct (get k (entries st)) as [x |].
  - destruct (expired cfg x now) eqn:Hx.
    + intros H. apply probe_disk_hit in H. tauto.
    + cbn. intros [= <-]. assumption.
  - intros H. apply probe_disk_hit in H. tauto.
Qed.

(** A hit comes from the store or, with [persist] on, from disk. *)
Lemma probe_hit_origin k now st e :
  fst (probe cfg k now st) = Some e ->
  get k (entries st) = Some e
  \/ (persist cfg = true /\ load k (disk st) = Some e).
Proof.
  unfold probe. destruct (get k (entries st)) as [x |].
  - destruct (expired cfg x now).
    + intros H. apply probe_disk_hit in H. right. tauto.
    + cbn. intros [= <-]. left. reflexivity.
  - intros H. apply probe_disk_hit in H. right. tauto.
Qed.

(** After a miss the store holds nothing for the key. *)
Lemma probe_miss k now st :
  fst (probe cfg k now st) = None ->
  probe cfg k now st = (None, with_entries (remove k (entries st)) st)
  /\ get k (entries (snd (probe cfg k now st))) = None.
Proof.
  unfold probe. destruct (get k (entries st)) as [x |] eqn:Hg.
  - destruct (expired cfg x now); [| discriminate].
    intros H. apply probe_disk_miss in H. rewrite H. cbn.
    split; [reflexivity |]. rewrite get_remove, decide_True; reflexivity.
  - intros H. apply probe_disk_miss in H. rewrite H. cbn.
    rewrite (remove_absent _ _ Hg). split; [| assumption].
    destruct st; reflexivity.
Qed.

(** A live entry in memory is a hit that leaves the cache as it is. *)
Lemma probe_live k now st e :
  get k (entries st) = Some e ->
  expired cfg e now = false ->
  probe cfg k now st = (Some e, st).
Proof. intros Hg Hl. unfold probe. rewrite Hg, Hl. reflexivity. Qed.

(** A key the cache knows nothing about is a miss that changes nothing. *)
Lemma probe_absent k now st :
  absent k st -> probe cfg k now st = (None, st).
Proof.
  intros [Hg Hd]. unfold probe, probe_disk. rewrite Hg, Hd.
  destruct (persist cfg); reflexivity.
Qed.

Lemma store_result_get k v now st :
  get k (entries (store_result cfg k v now st))
  = Some {| key := k; value := v; created_at := now; last_touch := now |}.
Proof.
  unfold store_result.
  set (e := {| key := k; value := v; created_at := now; last_touch := now |}).
  assert (get k (insert_entry cfg e (entries st)) = Some e) as He
    by apply (get_insert_entry_eq cfg e).
  destruct (persist cfg); [destruct (save k e (disk st)) |]; exact He.
Qed.

Lemma store_result_log k v now st :
  log (store_result cfg k v now st) = log st.
Proof.
  unfold store_result.
  destruct (persist cfg); [destruct (save _ _ _) |]; reflexivity.
Qed.

(** Writing a result for one key leaves another unknown key unknown. *)
Lemma store_result_absent k k' v now st :
  k <> k' -> absent k' st -> absent k' (store_result cfg k v now st).
Proof.
  intros Hk [Hg Hd]. unfold store_result, absent.
  set (e := {| key := k; value := v; created_at := now; last_touch := now |}).
  assert (get k' (insert_entry cfg e (entries st)) = None) as He
    by (apply get_insert_entry_absent; assumption).
  destruct (persist cfg); [| split; assumption].
  unfold save. destruct (writable (disk st)); cbn; split; try assumption.
  unfold load in *. cbn. rewrite lookup_insert_ne; assumption.
Qed.

(** A call that misses runs the wrapped callable once, answers with its
    outcome, and stores the value when there is one. *)
Lemma call_miss a k now st :
  key_of a = inr k ->
  fst (probe cfg k now st) = None ->
  exists st',
    call a now st = (outcome a, st')
    /\ log st' = log st ++ [a]
    /\ (forall v, f a = inr v ->
          st' = store_result cfg k v now
                  (logged a (with_entries (remove k (entries st)) st)))
    /\ (forall exn, f a = inl exn ->
          st' = logged a (with_entries (remove k (entries st)) st)).
Proof.
  intros Hk Hmiss. unfold Engine.call. rewrite Hk.
  destruct (probe_miss k now st Hmiss) as [-> _].
  unfold Engine.compute, Engine.outcome. destruct (f a) as [exn | v].
  - eexists. split; [reflexivity |]. split; [reflexivity |].
    split; [discriminate | reflexivity].
  - eexists. split; [reflexivity |]. rewrite store_result_log.
    split; [reflexivity |]. split; [| discriminate].
    intros ? [= <-]. reflexivity.
Qed.

(** A call on a live entry answers with the stored value and runs
    nothing. *)
Lemma call_hit a k now st e :
  key_of a = inr k ->
  get k (entries st) = Some e ->
  expired cfg e now = false ->
  call a now st = (inr (value e), st).
Proof.
  intros Hk Hg Hl. unfold Engine.call.
  rewrite Hk, (probe_live k now st e Hg Hl). reflexivity.
Qed.


Lemma absent_logged a k st : absent k st -> absent k (logged a st).
Proof. intros H. exact H. Qed.

Lemma absent_remove k k' st :
  absent k' st -> absent k' (with_entries (remove k (entries st)) st).
Proof.
  intros [Hg Hd]. split; [| exact Hd]. cbn.
  rewrite get_remove, Hg. destruct (decide _); reflexivity.
Qed.

(** C4. Memoization.  Take a callable that returns [v] on [a], a cache
    that has seen neither [a] nor [b], whose keys differ, and two calls
    with [a] such that the entry of the first is still live at the second.
    The first call runs the callable once and returns [v]; the second
    returns [v] again, runs nothing and leaves the cache as it is; a call
    with [b] runs the callable again. *)
Theorem memoized_call_runs_once a b k k' v t1 t2 t3 st :
  key_of a = inr k ->
  key_of b = inr k' ->
  k <> k' ->
  f a = inr v ->
  absent k st ->
  absent k' st ->
  (forall d, ttl cfg = Some d -> t2 - t1 < d) ->
  exists st1 st3,
    call a t1 st = (inr v, st1)
    /\ log st1 = log st ++ [a]
    /\ call a t2 st1 = (inr v, st1)
    /\ call b t3 st1 = (outcome b, st3)
    /\ log st3 = log st ++ [a; b].
Proof.
  intros Hk Hk' Hne Hf Ha Hb Hlive.
  assert (fst (probe cfg k t1 st) = None) as Hmiss
    by (rewrite (probe_absent k t1 st Ha); reflexivity).
  destruct (call_miss a k t1 st Hk Hmiss) as (st1 & Hc1 & Hl1 & Hv & _).
  specialize (Hv v Hf).
  assert (outcome a = inr v) as Ho by (unfold Engine.outcome; rewrite Hf; reflexivity).
  rewrite Ho in Hc1.
  set (e := {| key := k; value := v; created_at := t1; last_touch := t1 |}).
  assert (get k (entries st1) = Some e) as Hg
    by (rewrite Hv; apply store_result_get).
  assert (expired cfg e t2 = false) as He.
  { destruct (expired cfg e t2) eqn:Hx; [| reflexivity].
    apply expired_spec in Hx as (d & Hd & Hage).
    specialize (Hlive d Hd). cbn in Hage. lia. }
  assert (absent k' st1) as Hb1.
  { rewrite Hv. apply store_result_absent; [assumption |].
    apply absent_logged, absent_remove. assumption. }
  assert (fst (probe cfg k' t3 st1) = None) as Hmiss3
    by (rewrite (probe_absent k' t3 st1 Hb1); reflexivity).
  destruct (call_miss b k' t3 st1 Hk' Hmiss3) as (st3 & Hc3 & Hl3 & _).
  exists st1, st3. split; [exact Hc1 |]. split; [exact Hl1 |].
  split; [exact (call_hit a k t2 st1 e Hk Hg He) |].
  split; [exact Hc3 |].
  rewrite Hl3, Hl1, <- app_assoc. reflexivity.
Qed.

(** One caller: when the wrapped callable raises on a miss, the call
    raises the same error, nothing is written to the store or to disk, and
    the store holds no entry for the key afterwards: it is the store as
    the lookup left it, which is the store as it was when the key was not
    in it. *)
Lemma failed_call_writes_nothing a k exn now st :
  key_of a = inr k ->
  f a = inl exn ->
  fst (probe cfg k now st) = None ->
  exists st',
    call a now st = (inl (ComputationError exn), st')
    /\ entries st' = remove k (entries st)
    /\ get k (entries st') = None
    /\ (forall e, e ∈ entries st' -> e ∈ entries st)
    /\ (get k (entries st) = None -> entries st' = entries st)
    /\ disk st' = disk st
    /\ reports st' = reports st
    /\ log st' = log st ++ [a].
Proof.
  intros Hk Hf Hmiss.
  destruct (call_miss a k now st Hk Hmiss) as (st' & Hc & Hl & _ & Hx).
  specialize (Hx exn Hf). exists st'.
  assert (outcome a = inl (ComputationError exn)) as Ho
    by (unfold Engine.outcome; rewrite Hf; reflexivity).
  rewrite Ho in Hc. split; [exact Hc |]. subst st'. cbn.
  split; [reflexivity |].
  split; [rewrite get_remove, decide_True; reflexivity |].
  split; [apply remove_subseteq |].
  split; [apply remove_absent |]. auto.
Qed.

End CallProperties.

(* ===================================================================== *)
(** * Properties of concurrent callers                                    *)
(* ===================================================================== *)

Section SingleFlightProperties.
Import Engine SingleFlight.
Context {CallKey : Type} `{!EqDecision CallKey, !Countable CallKey}.
Context {V Args Exn FunctionIdentity HashFuncRegistry : Type}.
Variable derive :
  FunctionIdentity -> Args -> HashFuncRegistry -> Unhashable + CallKey.
Variable cfg : CacheConfig HashFuncRegistry.
Variable identity : FunctionIdentity.
Variable f : Args -> Exn + V.

Local Abbreviation Sys := (System CallKey V Args Exn).
Local Abbreviation Clr := (Caller CallKey V Args Exn).
Local Abbreviation step := (step derive cfg identity f).
Local Abbreviation exec := (exec derive cfg identity f).
Local Abbreviation reachable := (reachable derive cfg identity f).
Local Abbreviation consistent := (consistent derive cfg identity).
Local Abbreviation calls_key := (calls_key derive cfg identity).
Local Abbreviation key_of := (key_of derive cfg identity).
Local Abbreviation runs_of := (runs_of derive cfg identity).
Local Abbreviation outcome := (outcome f).
Local Abbreviation begins := (begins derive cfg identity).
Local Abbreviation finishes := (finishes f).
Local Abbreviation all_pending := (all_pending derive cfg identity).
Local Abbreviation all_returned := (all_returned derive cfg identity).
Local Abbreviation same_on := (same_on derive cfg identity).

Implicit Types (sys : Sys) (c : Clr) (k : CallKey) (i j : nat)
  (now : Timestamp) (r : Result V Exn).

Lemma compute_outcome (a : Args) k now (st : State CallKey V Args) :
  fst (compute cfg f a k now st) = outcome a
  /\ log (snd (compute cfg f a k now st)) = log st ++ [a].
Proof.
  unfold compute, Engine.outcome. destruct (f a); cbn; [auto |].
  rewrite store_result_log. auto.
Qed.

(** ** One caller alone

    A caller that is alone goes through the steps of [call]: the lookup,
    and on a miss the computation. *)
Lemma lone_caller_is_call (a : Args) now (st : State CallKey V Args) :
  exists sched sys',
    exec sched {| cache := st; inflight := ∅;
                  callers := [ {| request := a; status := Idle |} ] |}
    = Some sys'
    /\ cache sys' = snd (call derive cfg identity f a now st)
    /\ callers sys'
       = [ {| request := a;
              status := Done (fst (call derive cfg identity f a now st)) |} ].
Proof.
  unfold call.
  destruct (Engine.key_of derive cfg identity a) as [u | k] eqn:Hk.
  - exists [(0%nat, now)]. eexists. cbn. unfold with_status. cbn.
    rewrite Hk. split; [reflexivity |]. split; reflexivity.
  - destruct (probe cfg k now st) as [[e |] st'] eqn:Hp.
    + exists [(0%nat, now)]. eexists. cbn. unfold with_status. cbn.
      rewrite Hk, Hp. split; [reflexivity |]. split; reflexivity.
    + exists [(0%nat, now); (0%nat, now)]. cbn. unfold with_status. cbn.
      rewrite Hk, Hp. rewrite decide_False by apply not_elem_of_empty.
      cbn. destruct (compute cfg f a k now st') as [r st2].
      eexists. split; [reflexivity |]. split; reflexivity.
Qed.

(** ** What one step does *)

Lemma step_inv i now sys sys' :
  step i now sys = Some sys' ->
  exists c, callers sys !! i = Some c
            /\ ((exists s, begins i c s sys sys')
                \/ (exists k, finishes i c k sys sys')).
Proof.
  unfold SingleFlight.step. destruct (callers sys !! i) as [c |]; [| discriminate].
  intros H. exists c. split; [reflexivity |].
  destruct (status c) as [| k | k | r] eqn:Hs; try discriminate.
  - left. unfold begins.
    destruct (Engine.key_of derive cfg identity (request c)) as [u | k] eqn:Hk.
    + injection H as <-. eexists. cbn.
      split; [exact Hs |]. split; [reflexivity |]. split; [reflexivity |].
      left. eauto.
    + pose proof (probe_state cfg k now (cache sys)) as (_ & Hlog & _).
      destruct (probe cfg k now (cache sys)) as [[e |] st'].
      * injection H as <-. eexists. cbn.
        split; [exact Hs |]. split; [reflexivity |]. split; [exact Hlog |].
        left. eauto.
      * destruct (decide (k ∈ inflight sys)); injection H as <-;
          eexists; cbn;
          (split; [exact Hs |]; split; [reflexivity |];
           split; [exact Hlog |]).
        -- right. left. eauto.
        -- right. right. eauto.
  - right. exists k. unfold finishes.
    pose proof (compute_outcome (request c) k now (cache sys)) as [Ho Hl].
    destruct (compute cfg f (request c) k now (cache sys)) as [r st'].
    cbn in Ho, Hl. subst r. injection H as <-. cbn. auto.
Qed.

Lemma deliver_request k r c : request (deliver k r c) = request c.
Proof.
  unfold deliver. destruct (status c) as [| k' | k' | r']; try reflexivity.
  destruct (decide (k' = k)); reflexivity.
Qed.

(** [deliver] moves waiters on [k] and nobody else. *)
Lemma deliver_status k r c :
  status (deliver k r c)
  = match status c with
    | Waiting k' => if decide (k' = k) then Done r else Waiting k'
    | s => s
    end.
Proof.
  unfold deliver.
  destruct (status c) as [| k' | k' | r'] eqn:Hs; try exact Hs.
  destruct (decide (k' = k)); [reflexivity | exact Hs].
Qed.

Lemma begins_lookup i c s sys sys' j :
  callers sys !! i = Some c ->
  begins i c s sys sys' ->
  callers sys' !! j
  = if decide (j = i) then Some (with_status s c) else callers sys !! j.
Proof.
  intros Hi (_ & -> & _). destruct (decide (j = i)) as [-> | Hne].
  - apply list_lookup_insert_eq. eapply lookup_lt_Some. eassumption.
  - apply list_lookup_insert_ne. congruence.
Qed.

Lemma finishes_lookup i c k sys sys' j :
  callers sys !! i = Some c ->
  finishes i c k sys sys' ->
  callers sys' !! j
  = if decide (j = i) then Some (with_status (Done (outcome (request c))) c)
    else deliver k (outcome (request c)) <$> (callers sys !! j).
Proof.
  intros Hi (_ & -> & _). rewrite list_lookup_fmap.
  destruct (decide (j = i)) as [-> | Hne].
  - rewrite list_lookup_insert_eq by (eapply lookup_lt_Some; eassumption).
    reflexivity.
  - rewrite list_lookup_insert_ne by congruence. reflexivity.
Qed.

(** No step changes what a caller asked for. *)
Lemma step_requests i now sys sys' :
  step i now sys = Some sys' ->
  request <$> callers sys' = request <$> callers sys.
Proof.
  intros H. apply step_inv in H as (c & Hi & [(s & Hb) | (k & Hf)]);
    apply list_eq; intros j; rewrite !list_lookup_fmap.
  - rewrite (begins_lookup i c s sys sys' j Hi Hb).
    destruct (decide (j = i)) as [-> | _]; [| reflexivity].
    rewrite Hi. reflexivity.
  - rewrite (finishes_lookup i c k sys sys' j Hi Hf).
    destruct (decide (j = i)) as [-> | _]; [rewrite Hi; reflexivity |].
    destruct (callers sys !! j) as [x |]; [| reflexivity].
    cbn. rewrite deliver_request. reflexivity.
Qed.

Lemma deliver_computing k r c k' :
  status (deliver k r c) = Computing k' <-> status c = Computing k'.
Proof.
  rewrite deliver_status. destruct (status c) as [| k1 | k1 | r1];
    try tauto.
  destruct (decide (k1 = k)); split; discriminate.
Qed.

Lemma deliver_waiting k r c k' :
  status (deliver k r c) = Waiting k' <-> status c = Waiting k' /\ k' <> k.
Proof.
  rewrite deliver_status. destruct (status c) as [| k1 | k1 | r1];
    try (split; [discriminate | intros [? _]; discriminate]).
  destruct (decide (k1 = k)) as [-> | Hne].
  - split; [discriminate | intros [[= ->] Hk]; contradiction].
  - split; [intros [= ->]; auto | intros [? _]; assumption].
Qed.

(** ** The invariant *)

Lemma initial_consistent sys : initial sys -> consistent sys.
Proof.
  intros [Hfl Hidle]. rewrite Forall_lookup in Hidle.
  split; [| split; [| split]].
  - intros i c k Hi Hs. rewrite (Hidle i c Hi) in Hs. discriminate.
  - intros i c k Hi Hs. rewrite (Hidle i c Hi) in Hs. discriminate.
  - intros i j c c' k Hi _ Hs. rewrite (Hidle i c Hi) in Hs. discriminate.
  - intros k Hk. rewrite Hfl in Hk. apply not_elem_of_empty in Hk.
    contradiction.
Qed.

Lemma begins_consistent i c s sys sys' :
  consistent sys ->
  callers sys !! i = Some c ->
  begins i c s sys sys' ->
  consistent sys'.
Proof.
  intros (I1 & I2 & I3 & I4) Hi Hb.
  pose proof (fun j => begins_lookup i c s sys sys' j Hi Hb) as L.
  destruct Hb as (Hidle & _ & _ & Hcase).
  assert (inflight sys ⊆ inflight sys') as Hsub.
  { destruct Hcase as [(r & _ & ->) | [(k & _ & _ & _ & ->)
                                      | (k & _ & _ & _ & ->)]];
      [reflexivity | reflexivity | apply union_subseteq_r]. }
  assert (forall k, s = Computing k ->
                    k ∈ inflight sys' /\ calls_key k c /\ k ∉ inflight sys)
    as Hcomp.
  { intros k ->.
    destruct Hcase as [(r & Hr & _) | [(k' & Hw & _)
                                      | (k' & [= <-] & Hc & Hn & ->)]];
      try discriminate.
    split; [| auto]. apply elem_of_union_l, elem_of_singleton. reflexivity. }
  assert (forall k, s = Waiting k -> k ∈ inflight sys' /\ calls_key k c)
    as Hwait.
  { intros k ->.
    destruct Hcase as [(r & Hr & _) | [(k' & [= <-] & Hc & Hin & ->)
                                      | (k' & Hc & _)]];
      try discriminate.
    auto. }
  assert (forall k, k ∈ inflight sys' -> k ∈ inflight sys \/ s = Computing k)
    as Hnew.
  { intros k Hk.
    destruct Hcase as [(r & _ & Hfl) | [(k' & _ & _ & _ & Hfl)
                                       | (k' & -> & _ & _ & Hfl)]];
      rewrite Hfl in Hk; [auto | auto |].
    apply elem_of_union in Hk as [Hk | Hk]; [| auto].
    apply elem_of_singleton in Hk as ->. auto. }
  split; [| split; [| split]].
  - intros j c' k Hj Hs. rewrite L in Hj.
    destruct (decide (j = i)) as [-> | Hne].
    + injection Hj as <-. cbn in Hs. destruct (Hcomp k Hs) as (? & ? & _).
      auto.
    + destruct (I1 j c' k Hj Hs). auto.
  - intros j c' k Hj Hs. rewrite L in Hj.
    destruct (decide (j = i)) as [-> | Hne].
    + injection Hj as <-. cbn in Hs. destruct (Hwait k Hs). auto.
    + destruct (I2 j c' k Hj Hs). auto.
  - intros j1 j2 c1 c2 k H1 H2 Hs1 Hs2. rewrite L in H1, H2.
    destruct (decide (j1 = i)) as [-> | Hne1];
      destruct (decide (j2 = i)) as [-> | Hne2]; [reflexivity | | |].
    + injection H1 as <-. cbn in Hs1.
      destruct (Hcomp k Hs1) as (_ & _ & Hfree).
      destruct (I1 j2 c2 k H2 Hs2). contradiction.
    + injection H2 as <-. cbn in Hs2.
      destruct (Hcomp k Hs2) as (_ & _ & Hfree).
      destruct (I1 j1 c1 k H1 Hs1). contradiction.
    + eapply I3; eassumption.
  - intros k Hk. destruct (Hnew k Hk) as [Hold | ->].
    + destruct (I4 k Hold) as (j & x & Hj & Hs).
      exists j, x. split; [| exact Hs]. rewrite L.
      destruct (decide (j = i)) as [-> | _]; [| exact Hj].
      rewrite Hi in Hj. injection Hj as <-. rewrite Hidle in Hs. discriminate.
    + exists i, (with_status (Computing k) c). split; [| reflexivity].
      rewrite L, decide_True; reflexivity.
Qed.

Lemma finishes_consistent i c k sys sys' :
  consistent sys ->
  callers sys !! i = Some c ->
  finishes i c k sys sys' ->
  consistent sys'.
Proof.
  intros (I1 & I2 & I3 & I4) Hi Hf.
  pose proof (fun j => finishes_lookup i c k sys sys' j Hi Hf) as L.
  destruct Hf as (Hcomp & _ & Hfl & _).
  split; [| split; [| split]].
  - intros j c' k' Hj Hs. rewrite L in Hj.
    destruct (decide (j = i)) as [-> | Hne];
      [injection Hj as <-; discriminate |].
    destruct (callers sys !! j) as [x |] eqn:Hx; [| discriminate].
    injection Hj as <-. apply deliver_computing in Hs.
    destruct (I1 j x k' Hx Hs) as [Hin Hkey].
    split; [| unfold SingleFlight.calls_key in *;
              rewrite deliver_request; exact Hkey].
    rewrite Hfl. apply elem_of_difference. split; [exact Hin |].
    rewrite elem_of_singleton. intros ->.
    apply Hne. eapply I3; eassumption.
  - intros j c' k' Hj Hs. rewrite L in Hj.
    destruct (decide (j = i)) as [-> | Hne];
      [injection Hj as <-; discriminate |].
    destruct (callers sys !! j) as [x |] eqn:Hx; [| discriminate].
    injection Hj as <-. apply deliver_waiting in Hs as [Hs Hk].
    destruct (I2 j x k' Hx Hs) as [Hin Hkey].
    split; [| unfold SingleFlight.calls_key in *;
              rewrite deliver_request; exact Hkey].
    rewrite Hfl. apply elem_of_difference. split; [exact Hin |].
    rewrite elem_of_singleton. exact Hk.
  - intros j1 j2 c1 c2 k' H1 H2 Hs1 Hs2. rewrite L in H1, H2.
    destruct (decide (j1 = i)) as [-> | Hne1];
      [injection H1 as <-; discriminate |].
    destruct (decide (j2 = i)) as [-> | Hne2];
      [injection H2 as <-; discriminate |].
    destruct (callers sys !! j1) as [x1 |] eqn:Hx1; [| discriminate].
    destruct (callers sys !! j2) as [x2 |] eqn:Hx2; [| discriminate].
    injection H1 as <-. injection H2 as <-.
    apply deliver_computing in Hs1, Hs2. eapply I3; eassumption.
  - intros k' Hk. rewrite Hfl in Hk.
    apply elem_of_difference in Hk as [Hin Hk].
    rewrite elem_of_singleton in Hk.
    destruct (I4 k' Hin) as (j & x & Hj & Hs).
    exists j, (deliver k (outcome (request c)) x).
    split; [| apply deliver_computing; exact Hs].
    rewrite L. destruct (decide (j = i)) as [-> | _].
    + rewrite Hi in Hj. injection Hj as <-. congruence.
    + rewrite Hj. reflexivity.
Qed.

Lemma step_consistent i now sys sys' :
  consistent sys -> step i now sys = Some sys' -> consistent sys'.
Proof.
  intros Hc H. apply step_inv in H as (c & Hi & [(s & Hb) | (k & Hf)]).
  - eapply begins_consistent; eassumption.
  - eapply finishes_consistent; eassumption.
Qed.

Lemma exec_consistent sched sys sys' :
  consistent sys -> exec sched sys = Some sys' -> consistent sys'.
Proof.
  revert sys. induction sched as [| [i now] sched IH]; intros sys Hc; cbn.
  - intros [= <-]. exact Hc.
  - destruct (step i now sys) as [sys1 |] eqn:Hs; [| discriminate].
    apply IH. eapply step_consistent; eassumption.
Qed.

Lemma reachable_consistent sys : reachable sys -> consistent sys.
Proof.
  intros (sys0 & sched & Hinit & Hexec).
  eapply exec_consistent; [| exact Hexec]. apply initial_consistent, Hinit.
Qed.

(** ** Phases of the callers of one key *)

Lemma calls_key_inj k k' c : calls_key k c -> calls_key k' c -> k = k'.
Proof. unfold SingleFlight.calls_key. congruence. Qed.

Lemma runs_of_snoc k (l : list Args) (a : Args) :
  runs_of k (l ++ [a])
  = (runs_of k l
     + if has_key derive cfg identity k a then 1 else 0)%nat.
Proof.
  unfold Engine.runs_of. rewrite filter_app, length_app, filter_cons.
  destruct (has_key derive cfg identity k a).
  - rewrite decide_True by reflexivity. reflexivity.
  - rewrite decide_False by discriminate. reflexivity.
Qed.

Lemma has_key_calls k k' c :
  calls_key k' c ->
  has_key derive cfg identity k (request c) = bool_decide (k' = k).
Proof.
  unfold SingleFlight.calls_key, has_key. intros ->. reflexivity.
Qed.

(** Once the callers of [k] have returned, no step of anyone moves them
    or runs the callable for [k]. *)
Lemma returned_step k r i now sys sys' :
  consistent sys ->
  all_returned k r sys ->
  step i now sys = Some sys' ->
  all_returned k r sys'
  /\ runs_of k (log (cache sys')) = runs_of k (log (cache sys)).
Proof.
  intros Hc Hret H.
  apply step_inv in H as (c & Hi & [(s & Hb) | (k' & Hf)]).
  - pose proof (fun j => begins_lookup i c s sys sys' j Hi Hb) as L.
    destruct Hb as (Hidle & _ & Hlog & _).
    assert (~ calls_key k c) as Hnot.
    { intros Hk. specialize (Hret i c Hi Hk). unfold returned in Hret.
      congruence. }
    split; [| rewrite Hlog; reflexivity].
    intros j c' Hj Hk. rewrite L in Hj.
    destruct (decide (j = i)) as [-> | _].
    + injection Hj as <-. contradiction.
    + eapply Hret; eassumption.
  - pose proof (fun j => finishes_lookup i c k' sys sys' j Hi Hf) as L.
    destruct Hf as (Hcomp & _ & _ & Hlog).
    destruct Hc as (I1 & _).
    destruct (I1 i c k' Hi Hcomp) as [_ Hkey].
    assert (k' <> k) as Hne.
    { intros ->. specialize (Hret i c Hi Hkey). unfold returned in Hret.
      congruence. }
    split.
    + intros j c' Hj Hk. rewrite L in Hj.
      destruct (decide (j = i)) as [-> | _].
      * injection Hj as <-. exfalso. apply Hne.
        eapply calls_key_inj; eassumption.
      * destruct (callers sys !! j) as [x |] eqn:Hx; [| discriminate].
        injection Hj as <-.
        unfold SingleFlight.calls_key in Hk. rewrite deliver_request in Hk.
        specialize (Hret j x Hx Hk). unfold returned in *.
        rewrite deliver_status, Hret. reflexivity.
    + rewrite Hlog, runs_of_snoc, (has_key_calls k k' c Hkey).
      rewrite bool_decide_eq_false_2 by assumption. lia.
Qed.

(** While the callers of [k] are pending, a step either leaves them where
    they are and runs nothing for [k], or is the one computing caller
    finishing: then the callable has run once more for [k] and every
    caller of [k] has returned its outcome. *)
Lemma pending_step k i now sys sys' :
  consistent sys ->
  all_pending k sys ->
  step i now sys = Some sys' ->
  (all_pending k sys' /\ same_on k sys sys'
   /\ runs_of k (log (cache sys')) = runs_of k (log (cache sys)))
  \/ (exists c, callers sys !! i = Some c
                /\ status c = Computing k
                /\ all_returned k (outcome (request c)) sys'
                /\ runs_of k (log (cache sys'))
                   = S (runs_of k (log (cache sys)))).
Proof.
  intros Hc Hpen H.
  apply step_inv in H as (c & Hi & [(s & Hb) | (k' & Hf)]).
  - left.
    pose proof (fun j => begins_lookup i c s sys sys' j Hi Hb) as L.
    destruct Hb as (Hidle & _ & Hlog & _).
    assert (~ calls_key k c) as Hnot.
    { intros Hk. destruct (Hpen i c Hi Hk); congruence. }
    split; [| split; [| rewrite Hlog; reflexivity]].
    + intros j c' Hj Hk. rewrite L in Hj.
      destruct (decide (j = i)) as [-> | _].
      * injection Hj as <-. contradiction.
      * eapply Hpen; eassumption.
    + intros j c' Hj Hk. rewrite L.
      destruct (decide (j = i)) as [-> | _]; [| exact Hj].
      rewrite Hi in Hj. injection Hj as <-. contradiction.
  - pose proof (fun j => finishes_lookup i c k' sys sys' j Hi Hf) as L.
    destruct Hf as (Hcomp & _ & _ & Hlog).
    destruct Hc as (I1 & _ & I3 & _).
    destruct (I1 i c k' Hi Hcomp) as [_ Hkey].
    destruct (decide (k' = k)) as [-> | Hne].
    + right. exists c. split; [exact Hi |]. split; [exact Hcomp |]. split.
      * intros j c' Hj Hk. rewrite L in Hj.
        destruct (decide (j = i)) as [-> | Hji].
        -- injection Hj as <-. reflexivity.
        -- destruct (callers sys !! j) as [x |] eqn:Hx; [| discriminate].
           injection Hj as <-.
           unfold SingleFlight.calls_key in Hk. rewrite deliver_request in Hk.
           unfold returned. rewrite deliver_status.
           destruct (Hpen j x Hx Hk) as [Hs | Hs]; rewrite Hs.
           ++ exfalso. apply Hji. eapply I3; eassumption.
           ++ rewrite decide_True; reflexivity.
      * rewrite Hlog, runs_of_snoc, (has_key_calls k k c Hkey).
        rewrite bool_decide_eq_true_2 by reflexivity. lia.
    + left.
      assert (forall x : Clr, pending k x ->
                        deliver k' (outcome (request c)) x = x) as Hsame.
      { intros x [Hs | Hs]; unfold deliver; rewrite Hs; [reflexivity |].
        rewrite decide_False by congruence. reflexivity. }
      split; [| split].
      * intros j c' Hj Hk. rewrite L in Hj.
        destruct (decide (j = i)) as [-> | _].
        -- injection Hj as <-. exfalso. apply Hne.
           eapply calls_key_inj; eassumption.
        -- destruct (callers sys !! j) as [x |] eqn:Hx; [| discriminate].
           injection Hj as <-.
           unfold SingleFlight.calls_key in Hk. rewrite deliver_request in Hk.
           rewrite (Hsame x (Hpen j x Hx Hk)). eapply Hpen; eassumption.
      * intros j x Hx Hk. rewrite L.
        destruct (decide (j = i)) as [-> | _].
        -- rewrite Hi in Hx. injection Hx as <-. exfalso. apply Hne.
           eapply calls_key_inj; eassumption.
        -- rewrite Hx. cbn. rewrite (Hsame x (Hpen j x Hx Hk)). reflexivity.
      * rewrite Hlog, runs_of_snoc, (has_key_calls k k' c Hkey).
        rewrite bool_decide_eq_false_2 by assumption. lia.
Qed.

Lemma returned_exec k r sched sys sys' :
  consistent sys ->
  all_returned k r sys ->
  exec sched sys = Some sys' ->
  all_returned k r sys'
  /\ runs_of k (log (cache sys')) = runs_of k (log (cache sys)).
Proof.
  revert sys. induction sched as [| [i now] sched IH]; intros sys Hc Hret; cbn.
  - intros [= <-]. auto.
  - destruct (step i now sys) as [sys1 |] eqn:Hs; [| discriminate].
    intros Hexec.
    destruct (returned_step k r i now sys sys1 Hc Hret Hs) as [Hret1 Hruns1].
    destruct (IH sys1 (step_consistent _ _ _ _ Hc Hs) Hret1 Hexec)
      as [Hret' Hruns'].
    split; [exact Hret' | congruence].
Qed.

(** A computing caller can always take its step: nothing holds back the
    end of a computation. *)
Lemma computing_can_finish i c k now sys :
  callers sys !! i = Some c ->
  status c = Computing k ->
  exists sys', step i now sys = Some sys'.
Proof.
  intros Hi Hs. unfold SingleFlight.step. rewrite Hi, Hs.
  destruct (compute cfg f (request c) k now (cache sys)) as [r st'].
  eauto.
Qed.

(** A waiting caller is blocked: it cannot step, and so runs nothing. *)
Lemma waiting_is_blocked i c k now sys :
  callers sys !! i = Some c ->
  status c = Waiting k ->
  step i now sys = None.
Proof.
  intros Hi Hs. unfold SingleFlight.step. rewrite Hi, Hs. reflexivity.
Qed.

(** The caller that steps does not stand where it stood. *)
Lemma step_moves_caller i now sys sys' c :
  step i now sys = Some sys' ->
  callers sys !! i = Some c ->
  callers sys' !! i <> Some c.
Proof.
  intros H Hi.
  apply step_inv in H as (c' & Hi' & [(s & Hb) | (k & Hf)]);
    rewrite Hi in Hi'; injection Hi' as <-.
  - rewrite (begins_lookup i c s sys sys' i Hi Hb), decide_True by reflexivity.
    destruct Hb as (Hidle & _ & _ & Hcase).
    intros [= Heq]. apply (f_equal status) in Heq. cbn in Heq.
    rewrite Hidle in Heq.
    destruct Hcase as [(r & -> & _) | [(k & -> & _) | (k & -> & _)]];
      discriminate Heq.
  - rewrite (finishes_lookup i c k sys sys' i Hi Hf), decide_True
      by reflexivity.
    destruct Hf as (Hcomp & _).
    intros [= Heq]. apply (f_equal status) in Heq. cbn in Heq.
    rewrite Hcomp in Heq. discriminate Heq.
Qed.

Lemma exec_requests sched sys sys' :
  exec sched sys = Some sys' ->
  request <$> callers sys' = request <$> callers sys.
Proof.
  revert sys. induction sched as [| [i now] sched IH]; intros sys; cbn.
  - intros [= <-]. reflexivity.
  - destruct (step i now sys) as [sys1 |] eqn:Hs; [| discriminate].
    intros Hexec. rewrite (IH sys1 Hexec). eapply step_requests. exact Hs.
Qed.

(** While the callers of [k] are pending, with caller [i0] computing, a
    schedule either never lets [i0] step, and then the callers of [k]
    stand where they stood and nothing has run for [k]; or it lets [i0]
    step, and then the callable has run once more for [k] and every caller
    of [k] has returned the outcome of that run. *)
Lemma pending_exec k i0 c0 sched sys sys' :
  consistent sys ->
  all_pending k sys ->
  callers sys !! i0 = Some c0 ->
  status c0 = Computing k ->
  exec sched sys = Some sys' ->
  ((i0 ∉ steppers sched)
   /\ all_pending k sys' /\ same_on k sys sys'
   /\ runs_of k (log (cache sys')) = runs_of k (log (cache sys)))
  \/ (i0 ∈ steppers sched
      /\ all_returned k (outcome (request c0)) sys'
      /\ runs_of k (log (cache sys')) = S (runs_of k (log (cache sys)))).
Proof.
  revert sys. induction sched as [| [i now] sched IH];
    intros sys Hc Hpen Hi0 Hs0; cbn [SingleFlight.exec].
  - intros [= <-]. left. split; [apply not_elem_of_nil |].
    split; [exact Hpen |]. split; [| reflexivity].
    intros j c Hj _. exact Hj.
  - destruct (step i now sys) as [sys1 |] eqn:Hs; [| discriminate].
    intros Hexec.
    pose proof (step_consistent _ _ _ _ Hc Hs) as Hc1.
    pose proof (proj1 Hc i0 c0 k Hi0 Hs0) as [_ Hkey0].
    destruct (pending_step k i now sys sys1 Hc Hpen Hs)
      as [(Hpen1 & Hsame1 & Hruns1) | (c & Hi & Hcomp & Hret1 & Hruns1)].
    + pose proof (Hsame1 i0 c0 Hi0 Hkey0) as Hi0'.
      assert (i <> i0) as Hne.
      { intros ->. exact (step_moves_caller _ _ _ _ _ Hs Hi0 Hi0'). }
      destruct (IH sys1 Hc1 Hpen1 Hi0' Hs0 Hexec)
        as [(Hout & Hpen' & Hsame' & Hruns') | (Hin & Hret' & Hruns')].
      * left. split.
        { unfold steppers in *. cbn. rewrite not_elem_of_cons.
          split; [congruence | exact Hout]. }
        split; [exact Hpen' |]. split; [| congruence].
        intros j c Hj Hk. apply Hsame'; [| exact Hk].
        apply Hsame1; assumption.
      * right. split.
        { unfold steppers in *. cbn. right. exact Hin. }
        split; [exact Hret' | congruence].
    + assert (i = i0) as ->.
      { destruct Hc as (_ & _ & I3 & _). eapply I3; eassumption. }
      rewrite Hi0 in Hi. injection Hi as <-.
      right. split; [unfold steppers; cbn; left |].
      destruct (returned_exec k _ sched sys1 sys' Hc1 Hret1 Hexec)
        as [Hret' Hruns'].
      split; [exact Hret' | congruence].
Qed.

(** In a consistent system the caller that computes a key is the only
    one. *)
Lemma computing_singleton k i c sys :
  consistent sys ->
  callers sys !! i = Some c ->
  status c = Computing k ->
  computing k sys = [c].
Proof.
  intros (_ & _ & I3 & _) Hi Hs. unfold computing.
  assert (forall j x, callers sys !! j = Some x -> j <> i ->
                      is_computing k x = false) as Hothers.
  { intros j x Hj Hne. unfold is_computing.
    destruct (status x) as [| k1 | k1 | r1] eqn:Hx; try reflexivity.
    apply bool_decide_eq_false_2. intros ->. apply Hne.
    eapply I3; eassumption. }
  rewrite <- (take_drop_middle (callers sys) i c Hi) at 1.
  rewrite filter_app, filter_cons.
  assert (is_computing k c = true) as ->.
  { unfold is_computing. rewrite Hs. apply bool_decide_eq_true_2. reflexivity. }
  rewrite decide_True by reflexivity.
  assert (forall l : list Clr,
             (forall x, x ∈ l -> is_computing k x = false) ->
             filter (fun c => is_computing k c = true) l = []) as Hnil.
  { induction l as [| x l IH]; intros Hl; [reflexivity |].
    rewrite filter_cons, decide_False
      by (rewrite Hl; [discriminate | left]).
    apply IH. intros y Hy. apply Hl. right. exact Hy. }
  rewrite !Hnil; [reflexivity | |].
  - intros x Hx. apply list_elem_of_lookup in Hx as [j Hj].
    rewrite lookup_drop in Hj. eapply Hothers; [exact Hj | lia].
  - intros x Hx. apply list_elem_of_lookup in Hx as [j Hj].
    pose proof (lookup_lt_Some _ _ _ Hj) as Hlt.
    rewrite length_take in Hlt.
    rewrite lookup_take_lt in Hj by lia. eapply Hothers; [exact Hj | lia].
Qed.


(** Several callers: when the computing caller's run of the wrapped
    callable raises, the step that ends the computation writes nothing to
    the store or to disk, and the computing caller and every caller that
    waits on the key raise that same error. *)
Lemma failed_flight_reaches_waiters i c k exn now sys sys' :
  callers sys !! i = Some c ->
  status c = Computing k ->
  f (request c) = inl exn ->
  step i now sys = Some sys' ->
  entries (cache sys') = entries (cache sys)
  /\ disk (cache sys') = disk (cache sys)
  /\ forall j x,
       callers sys !! j = Some x ->
       j = i \/ status x = Waiting k ->
       exists x', callers sys' !! j = Some x'
                  /\ request x' = request x
                  /\ status x' = Done (inl (ComputationError exn)).
Proof.
  intros Hi Hs Hf Hstep.
  assert (outcome (request c) = inl (ComputationError exn)) as Ho
    by (unfold Engine.outcome; rewrite Hf; reflexivity).
  split; [| split].
  - unfold SingleFlight.step in Hstep. rewrite Hi, Hs in Hstep.
    unfold compute in Hstep. rewrite Hf in Hstep.
    injection Hstep as <-. reflexivity.
  - unfold SingleFlight.step in Hstep. rewrite Hi, Hs in Hstep.
    unfold compute in Hstep. rewrite Hf in Hstep.
    injection Hstep as <-. reflexivity.
  - apply step_inv in Hstep as (c' & Hi' & [(s & Hb) | (k' & Hfin)]);
      rewrite Hi in Hi'; injection Hi' as <-.
    { destruct Hb as (Hidle & _). congruence. }
    pose proof (fun j => finishes_lookup i c k' sys sys' j Hi Hfin) as L.
    destruct Hfin as (Hs' & _). rewrite Hs in Hs'. injection Hs' as <-.
    rewrite Ho in L.
    intros j x Hj Hwho. rewrite L.
    destruct (decide (j = i)) as [-> | Hne].
    + rewrite Hi in Hj. injection Hj as <-. eexists.
      split; [reflexivity |]. split; reflexivity.
    + destruct Hwho as [-> | Hw]; [contradiction |].
      rewrite Hj. eexists. split; [reflexivity |].
      rewrite deliver_request, deliver_status, Hw.
      rewrite decide_True by reflexivity. split; reflexivity.
Qed.

(** C8. A failure is never cached.  When the wrapped callable raises, the
    call raises that same error and the failing attempt writes nothing:
    the store afterwards is the store as the lookup left it, it holds no
    entry for the key, and the disk is untouched.  With several callers,
    the end of the failing computation hands the same error to the
    computing caller and to every caller that waits on the key, and
    leaves store and disk as they were. *)
Theorem failure_is_never_cached :
  (forall a k exn now (st : State CallKey V Args),
      key_of a = inr k ->
      f a = inl exn ->
      fst (probe cfg k now st) = None ->
      exists st',
        call derive cfg identity f a now st
        = (inl (ComputationError exn), st')
        /\ entries st' = remove k (entries st)
        /\ get k (entries st') = None
        /\ (forall e, e ∈ entries st' -> e ∈ entries st)
        /\ (get k (entries st) = None -> entries st' = entries st)
        /\ disk st' = disk st)
  /\ (forall i c k exn now sys sys',
        callers sys !! i = Some c ->
        status c = Computing k ->
        f (request c) = inl exn ->
        step i now sys = Some sys' ->
        entries (cache sys') = entries (cache sys)
        /\ disk (cache sys') = disk (cache sys)
        /\ forall j x,
             callers sys !! j = Some x ->
             j = i \/ status x = Waiting k ->
             exists x', callers sys' !! j = Some x'
                        /\ request x' = request x
                        /\ status x' = Done (inl (ComputationError exn))).
Proof.
  split.
  - intros a k exn now st Hk Hf Hmiss.
    destruct (failed_call_writes_nothing derive cfg identity f
                a k exn now st Hk Hf Hmiss)
      as (st' & H1 & H2 & H3 & H4 & H5 & H6 & _).
    exists st'. auto 10.
  - intros i c k exn now sys sys'. apply failed_flight_reaches_waiters.
Qed.

End SingleFlightProperties.

(* ===================================================================== *)
(** * The properties at concrete inputs                                   *)
(* ===================================================================== *)

Import Engine SingleFlight EngineDemo.

(** [fetch("A")] at 0 and at 5, then [fetch("B")] at 6, on a new cache
    with [ttl = 10]. *)
Lemma memoized_call_runs_once_witness :
  exists st1 st3,
    call derive_url bounded "fetch" fetch "A" 0 fresh = (inr 1%nat, st1)
    /\ log st1 = log fresh ++ ["A"]
    /\ call derive_url bounded "fetch" fetch "A" 5 st1 = (inr 1%nat, st1)
    /\ call derive_url bounded "fetch" fetch "B" 6 st1
       = (outcome fetch "B", st3)
    /\ log st3 = log fresh ++ ["A"; "B"].
Proof.
  apply (memoized_call_runs_once derive_url bounded "fetch" fetch
           "A" "B" "fetch:A" "fetch:B" 1%nat 0 5 6 fresh).
  - reflexivity.
  - reflexivity.
  - discriminate.
  - reflexivity.
  - split; reflexivity.
  - split; reflexivity.
  - intros d [= <-]. lia.
Defined.

(** A third key on a full store of two, and the access pattern that reads
    K1 again and again. *)
Lemma put_evicts_in_insertion_order_witness :
  (put bounded "fetch:C" 7%nat 5 [entry_A; entry_B]
   = evict [entry_A; entry_B]
     ++ [{| key := "fetch:C"; value := 7%nat; created_at := 5;
            last_touch := 5 |}])
  /\ keys (store_ops bounded access_pattern []) = ["K2"; "K3"].
Proof.
  split.
  - apply (proj1 (@put_evicts_in_insertion_order string _ nat unit)
             bounded [entry_A; entry_B] "fetch:C" 7%nat 5);
      reflexivity.
  - apply (proj2 (@put_evicts_in_insertion_order string _ nat unit)
             bounded "K1" "K2" "K3" 1%nat 2%nat 3%nat 0 1 2 access_pattern).
    + reflexivity.
    + discriminate.
    + discriminate.
    + discriminate.
    + lia.
    + reflexivity.
Defined.



(** [fetch("down")] raises, for a lone caller and for a caller with a
    waiter. *)
Lemma failure_is_never_cached_witness :
  (exists st',
      call derive_url plain "fetch" fetch "down" 0 fresh
      = (inl (ComputationError "ConnectionError"), st')
      /\ entries st' = remove "fetch:down" (entries fresh)
      /\ get "fetch:down" (entries st') = None
      /\ (forall e, e ∈ entries st' -> e ∈ entries fresh)
      /\ (get "fetch:down" (entries fresh) = None ->
          entries st' = entries fresh)
      /\ disk st' = disk fresh)
  /\ (exists x',
        callers down_failed !! 1%nat = Some x'
        /\ request x' = "down"
        /\ status x' = Done (inl (ComputationError "ConnectionError"))).
Proof.
  pose proof (failure_is_never_cached derive_url plain "fetch" fetch)
    as [Hone Hmany].
  split.
  - apply (Hone "down" "fetch:down" "ConnectionError" 0 fresh);
      reflexivity.
  - destruct (Hmany 0%nat
                {| request := "down"; status := Computing "fetch:down" |}
                "fetch:down" "ConnectionError" 5 down_flight down_failed)
      as (_ & _ & Hwaiters).
    + reflexivity.
    + reflexivity.
    + reflexivity.
    + vm_compute. reflexivity.
    + apply (Hwaiters 1%nat
               {| request := "down"; status := Waiting "fetch:down" |}).
      * reflexivity.
      * right. reflexivity.
Defined.

(** ** Runs of the examples *)

(** [st.cache()] with the defaults goes to [st.cache_data]. *)
Example default_call_goes_to_cache_data :
  Facade.trace
    (Facade.run Demo.count_notice Demo.answer
       (Facade.cache Demo.docs_url Facade.default_args) 0%nat)
  = [ Facade.EvDeprecation (Facade.deprecation_message Demo.docs_url);
      Facade.EvCall Facade.st_cache_data [Facade.VNone]
        [ ("persist", Facade.VBool false);
          ("show_spinner", Facade.VBool true);
          ("hash_funcs", Facade.VNone);
          ("max_entries", Facade.VNone);
          ("ttl", Facade.VNone) ] ].
Proof. reflexivity. Qed.

(** The example of the docstring: [DATA_URL_1], [DATA_URL_1] again, then
    [DATA_URL_2]; the callable runs for the first and the third call. *)
Example docstring_example :
  let c1 := call derive_url plain "fetch" fetch "A" 0 fresh in
  let c2 := call derive_url plain "fetch" fetch "A" 1 (snd c1) in
  let c3 := call derive_url plain "fetch" fetch "B" 2 (snd c2) in
  (fst c1, fst c2, fst c3) = (inr 1%nat, inr 1%nat, inr 1%nat)
  /\ log (snd c1) = ["A"]
  /\ log (snd c2) = ["A"]
  /\ log (snd c3) = ["A"; "B"].
Proof. vm_compute. auto. Qed.

(** With [ttl = 10] a call nine ticks after the first is a hit, and a call
    ten ticks after it runs the callable again. *)
Example ttl_example :
  let c1 := call derive_url bounded "fetch" fetch "A" 0 fresh in
  let c2 := call derive_url bounded "fetch" fetch "A" 9 (snd c1) in
  let c3 := call derive_url bounded "fetch" fetch "A" 10 (snd c2) in
  log (snd c2) = ["A"]
  /\ log (snd c3) = ["A"; "A"]
  /\ created_at <$> entries (snd c3) = [10].
Proof. vm_compute. auto. Qed.

(** A cache instance cannot be made with [max_entries = 0]; the bounded
    configuration starts empty. *)
Example construct_example :
  construct
    {| max_entries := Some 0%N; ttl := None; persist := false;
       hash_funcs := tt; mutation_policy := SharedMutable |}
    (disk fresh)
  = (inl InvalidMaxEntries : ConfigError + State string nat string)
  /\ construct bounded (disk fresh) = inr fresh.
Proof. split; reflexivity. Qed.

(** A failed fetch is tried again by the next call. *)
Example failure_example :
  let c1 := call derive_url plain "fetch" fetch "down" 0 fresh in
  let c2 := call derive_url plain "fetch" fetch "down" 1 (snd c1) in
  fst c1 = inl (ComputationError "ConnectionError")
  /\ entries (snd c1) = []
  /\ log (snd c2) = ["down"; "down"].
Proof. vm_compute. auto. Qed.
